(** * Trinity tool-call parser: a shallow embedding and its properties

    The development follows [vllm/tool_parsers/trinity_tool_parser.py]:
    the narration-delimiter stripper [_strip_think_tags], the one-shot
    extractor [extract_tool_calls] and the streaming assembler
    [extract_tool_calls_streaming].  The loop that collects the results
    of the streaming calls in [tests/tool_parsers/test_trinity_tool_parser.py]
    is modelled as well ([test_loop]).

    Python values are modelled as follows.
    - [str] is a list of characters (code points 0..255).
    - [str.find] returns [option nat]; [None] stands for Python's [-1].
    - An exception raised inside a [try] block is [None] in the option
      monad; the [except] branch is the match on [None].
    - [json.loads] and the validation done by the constructor of the
      record type [FunctionCall] are library code: they are parameters
      of the model.  [json.dumps] is embedded (it is a plain recursive
      printer). *)

From Stdlib Require Import Ascii String ZArith Lia.
From stdpp Require Import base option list strings pretty gmap.

Open Scope Z_scope.
Open Scope nat_scope.

#[local] Set Warnings "-register-all".

(** ** Strings *)

Abbreviation str := (list ascii).

Definition txt (s : string) : str := list_ascii_of_string s.

Definition chr (n : nat) : ascii := ascii_of_nat n.
Definition ord (c : ascii) : nat := nat_of_ascii c.

(** The double quote and the newline, which a literal cannot hold. *)
Definition dquote : ascii := chr 34.
Definition newline : ascii := chr 10.

(** [py "{'a': 1}"] is the Python text [{"a": 1}]: every apostrophe of
    the literal stands for a double quote. *)
Definition py (s : string) : str :=
  (λ c, if Ascii.eqb c "'" then dquote else c) <$> txt s.

(** [s.startswith(p)] *)
Fixpoint startswith (s p : str) {struct p} : bool :=
  match p, s with
  | [], _ => true
  | _ :: _, [] => false
  | a :: p', b :: s' => Ascii.eqb a b && startswith s' p'
  end.

(** [s.find(sub)]: the lowest index at which [sub] occurs in [s]. *)
Fixpoint find (s sub : str) : option nat :=
  if startswith s sub then Some 0
  else match s with
       | [] => None
       | _ :: s' => S <$> find s' sub
       end.

(** [s.find(sub, start)] for [0 <= start]. *)
Definition find_from (s sub : str) (start : nat) : option nat :=
  (λ i, start + i) <$> find (drop start s) sub.

(** [sub in s] *)
Definition contains (s sub : str) : bool :=
  match find s sub with Some _ => true | None => false end.

(** [s.replace(old, new)] for a non-empty [old]: occurrences are replaced
    from left to right and do not overlap.  The recursion is on a fuel
    that the length of [s] bounds. *)
Fixpoint replace_fuel (n : nat) (s old new : str) : str :=
  match n with
  | 0 => s
  | S n' =>
      if startswith s old then new ++ replace_fuel n' (drop (length old) s) old new
      else match s with
           | [] => []
           | c :: s' => c :: replace_fuel n' s' old new
           end
  end.

Definition replace (s old new : str) : str := replace_fuel (length s) s old new.

(** [s.rstrip("\n")] *)
Fixpoint rstrip_newline (s : str) : str :=
  match s with
  | [] => []
  | c :: s' =>
      match rstrip_newline s' with
      | [] => if Ascii.eqb c newline then [] else [c]
      | r => c :: r
      end
  end.

(** [x if x else None] on a string. *)
Definition nonempty (s : str) : option str :=
  match s with [] => None | _ => Some s end.

(** ** JSON values and [json.dumps]

    The values [json.loads] can return.  A [dict] keeps its keys in
    insertion order, which is the order [json.dumps] prints them in; a
    [float] is kept as the text [repr] gives it. *)
Inductive value : Type :=
| JNone
| JBool (b : bool)
| JInt (n : Z)
| JFloat (repr : str)
| JStr (s : str)
| JList (l : list value)
| JDict (d : list (str * value)).

(** [d.get(key, default)] *)
Fixpoint dict_get (d : list (str * value)) (key : str) (default : value) : value :=
  match d with
  | [] => default
  | (k, v) :: d' => if bool_decide (k = key) then v else dict_get d' key default
  end.

(** [d[key] = v] *)
Fixpoint dict_set (d : list (str * value)) (key : str) (v : value) : list (str * value) :=
  match d with
  | [] => [(key, v)]
  | (k, w) :: d' => if bool_decide (k = key) then (k, v) :: d' else (k, w) :: dict_set d' key v
  end.

Definition hex_digit (n : nat) : ascii :=
  if n <? 10 then chr (48 + n) else chr (87 + n).

(** The escapes of [json.encoder.py_encode_basestring], used when
    [ensure_ascii=False]. *)
Definition escape_char (c : ascii) : str :=
  let n := ord c in
  if n =? 34 then [chr 92; chr 34]
  else if n =? 92 then [chr 92; chr 92]
  else if n =? 10 then txt "\n"
  else if n =? 13 then txt "\r"
  else if n =? 9 then txt "\t"
  else if n =? 12 then txt "\f"
  else if n =? 8 then txt "\b"
  else if n <? 32 then txt "\u00" ++ [hex_digit (n / 16); hex_digit (n mod 16)]
  else [c].

Definition encode_basestring (s : str) : str :=
  dquote :: (s ≫= escape_char) ++ [dquote].

(** [sep.join(parts)] *)
Fixpoint join (sep : str) (parts : list str) : str :=
  match parts with
  | [] => []
  | [p] => p
  | p :: ps => p ++ sep ++ join sep ps
  end.

(** [json.dumps(v, ensure_ascii=False)], with the default separators
    [", "] and [": "]. *)
Fixpoint json_dumps (v : value) : str :=
  match v with
  | JNone => txt "null"
  | JBool true => txt "true"
  | JBool false => txt "false"
  | JInt n => txt (pretty n)
  | JFloat r => r
  | JStr s => encode_basestring s
  | JList l => txt "[" ++ join (txt ", ") (map json_dumps l) ++ txt "]"
  | JDict d =>
      txt "{"
      ++ join (txt ", ")
           (map (λ kv, match kv with
                       | (k, w) => encode_basestring k ++ txt ": " ++ json_dumps w
                       end) d)
      ++ txt "}"
  end.

(** ** The parser's constants *)

Definition tool_call_start_token : str := txt "<tool_call>".
Definition tool_call_end_token : str := txt "</tool_call>".
Definition tool_calls_start_token : str := tool_call_start_token.

Definition think_open : str := txt "<think>".
Definition think_close : str := txt "</think>".

(** [_strip_think_tags] *)
Definition _strip_think_tags (text : str) : str :=
  replace (replace text think_open []) think_close [].

(** ** The block pattern

    [tool_call_regex] is
    [<tool_call>\s*(?P<json>.*?)\s*</tool_call>] compiled with [DOTALL].
    The matcher below is a backtracking matcher in continuation style:
    [k] is the rest of the pattern, run on the rest of the input, and
    the alternatives of a repetition are tried in the engine's order
    (longest first for a greedy star, shortest first for a lazy one);
    the first success is the match. *)

(** [\s] on code points 0..255: the characters with the Unicode
    property White_Space. *)
Definition is_space (c : ascii) : bool :=
  let n := ord c in
  ((9 <=? n) && (n <=? 13)) || (n =? 32) || (n =? 133) || (n =? 160).

Section Regex.
Context {R : Type}.

(** A literal. *)
Definition re_lit (p : str) (k : str → option R) (s : str) : option R :=
  if startswith s p then k (drop (length p) s) else None.

(** [\s*], greedy. *)
Fixpoint re_space_star (k : str → option R) (s : str) : option R :=
  match s with
  | [] => k []
  | c :: s' =>
      if is_space c then
        match re_space_star k s' with
        | Some r => Some r
        | None => k s
        end
      else k s
  end.

(** [(.*?)], lazy, capturing; with [DOTALL] the dot takes any
    character.  [group] is what the group holds so far. *)
Fixpoint re_dot_star_lazy (k : str → str → option R) (group s : str) : option R :=
  match k group s with
  | Some r => Some r
  | None =>
      match s with
      | [] => None
      | c :: s' => re_dot_star_lazy k (group ++ [c]) s'
      end
  end.
End Regex.

(** One attempt of the pattern at the head of [s]: the text of the group
    [json] and the input left after the match. *)
Definition tool_call_regex (s : str) : option (str * str) :=
  re_lit tool_call_start_token
    (re_space_star
       (re_dot_star_lazy
          (λ json,
             re_space_star
               (re_lit tool_call_end_token (λ rest, Some (json, rest))))
          []))
    s.

(** [tool_call_regex.findall(s)]: the pattern is tried at each position
    from left to right; after a match the scan resumes where the match
    ended.  Every step consumes a character, so the length of [s] plus
    one is enough fuel. *)
Fixpoint findall_fuel (n : nat) (s : str) : list str :=
  match n with
  | 0 => []
  | S n' =>
      match tool_call_regex s with
      | Some (json, rest) => json :: findall_fuel n' rest
      | None =>
          match s with
          | [] => []
          | _ :: s' => findall_fuel n' s'
          end
      end
  end.

Definition findall (s : str) : list str := findall_fuel (S (length s)) s.

(** ** Protocol records

    The records of [vllm.entrypoints.openai.engine.protocol] that the
    parser builds.  The field [id] of a [ToolCall] is a fresh random
    identifier; it is left out. *)
Record FunctionCall : Type := {
  name : str;
  arguments : str;
}.

Record ToolCall : Type := {
  type : str;
  function : FunctionCall;
}.

Record ExtractedToolCallInformation : Type := {
  tools_called : bool;
  tool_calls : list ToolCall;
  content : option str;
}.

Record DeltaToolCall : Type := {
  index : Z;
  delta_type : str;
  delta_function : FunctionCall;
}.

Record DeltaMessage : Type := {
  delta_content : option str;
  delta_tool_calls : list DeltaToolCall;
}.

(** The fields of a [TrinityToolParser] that the two methods read or
    write. *)
Record TrinityToolParser : Type := {
  current_tool_name_sent : bool;
  prev_tool_call_arr : list value;
  current_tool_id : Z;
  streamed_args_for_tool : list str;
  _buffer : str;
}.

(** [__init__] *)
Definition init : TrinityToolParser := {|
  current_tool_name_sent := false;
  prev_tool_call_arr := [];
  current_tool_id := -1;
  streamed_args_for_tool := [];
  _buffer := [];
|}.

(** Assignments to the fields of [self]. *)
Definition set_buffer (self : TrinityToolParser) (b : str) : TrinityToolParser :=
  {| current_tool_name_sent := current_tool_name_sent self;
     prev_tool_call_arr := prev_tool_call_arr self;
     current_tool_id := current_tool_id self;
     streamed_args_for_tool := streamed_args_for_tool self;
     _buffer := b |}.

Definition set_current_tool_id (self : TrinityToolParser) (i : Z) : TrinityToolParser :=
  {| current_tool_name_sent := current_tool_name_sent self;
     prev_tool_call_arr := prev_tool_call_arr self;
     current_tool_id := i;
     streamed_args_for_tool := streamed_args_for_tool self;
     _buffer := _buffer self |}.

Definition set_prev_tool_call_arr (self : TrinityToolParser) (l : list value)
  : TrinityToolParser :=
  {| current_tool_name_sent := current_tool_name_sent self;
     prev_tool_call_arr := l;
     current_tool_id := current_tool_id self;
     streamed_args_for_tool := streamed_args_for_tool self;
     _buffer := _buffer self |}.

Definition set_streamed_args_for_tool (self : TrinityToolParser) (l : list str)
  : TrinityToolParser :=
  {| current_tool_name_sent := current_tool_name_sent self;
     prev_tool_call_arr := prev_tool_call_arr self;
     current_tool_id := current_tool_id self;
     streamed_args_for_tool := l;
     _buffer := _buffer self |}.

(** [while len(l) <= i: l.append(x)] *)
Definition grow {A : Type} (l : list A) (i : Z) (x : A) : list A :=
  l ++ replicate (Z.to_nat (i + 1 - Z.of_nat (length l))) x.

(** [l[i] = x]: a negative index counts from the end, and an index out
    of range raises [IndexError]. *)
Definition setitem {A : Type} (l : list A) (i : Z) (x : A) : option (list A) :=
  let n := Z.of_nat (length l) in
  if bool_decide (0 ≤ i < n)%Z then Some (<[Z.to_nat i := x]> l)
  else if bool_decide (- n ≤ i < 0)%Z then Some (<[Z.to_nat (n + i) := x]> l)
  else None.

(** What a call of [extract_tool_calls_streaming] does: it returns a
    value, or an exception leaves it; either way the parser is left in
    a new state. *)
Inductive outcome : Type :=
| Returned (self : TrinityToolParser) (r : option DeltaMessage)
| Raised (self : TrinityToolParser).

Section Parser.
(** [json.loads]: [None] when it raises. *)
Variable json_loads : str → option value.
(** The validation of the field [name: str] by the constructor of
    [FunctionCall]: the string kept in the field, or [None] when the
    constructor raises. *)
Variable FunctionCall_name : value → option str.

(** The body of the loop of [extract_tool_calls]. *)
Definition tool_call_of_json (tool_call_json : str) : option ToolCall :=
  tool_call_dict ← json_loads tool_call_json;
  match tool_call_dict with
  | JDict d =>
      let args_str := json_dumps (dict_get d (txt "arguments") (JDict [])) in
      name ← FunctionCall_name (dict_get d (txt "name") (JStr []));
      Some {| type := txt "function";
              function := {| name := name; arguments := args_str |} |}
  | _ => None
  end.

Definition extract_tool_calls (model_output : str) : ExtractedToolCallInformation :=
  let stripped_output := _strip_think_tags model_output in
  if negb (contains stripped_output tool_calls_start_token) then
    {| tools_called := false; tool_calls := []; content := Some stripped_output |}
  else
    match mapM tool_call_of_json (findall stripped_output) with
    | Some tool_calls =>
        let content :=
          rstrip_newline
            (match find stripped_output tool_calls_start_token with
             | Some i => take i stripped_output
             | None => take (length stripped_output - 1) stripped_output
             end) in
        {| tools_called := true; tool_calls := tool_calls; content := nonempty content |}
    | None =>
        {| tools_called := false; tool_calls := []; content := Some stripped_output |}
    end.

Definition extract_tool_calls_streaming
    (self : TrinityToolParser) (delta_text : str) : outcome :=
  let delta_text := _strip_think_tags delta_text in
  let self := set_buffer self (_buffer self ++ delta_text) in
  let cur_text := _buffer self in
  match find cur_text tool_call_start_token with
  | None =>
      let self := set_buffer self [] in
      let cur_text := if (0 <? current_tool_id self)%Z then [] else cur_text in
      Returned self
        (Some {| delta_content := nonempty cur_text; delta_tool_calls := [] |})
  | Some start_idx =>
      match find_from cur_text tool_call_end_token start_idx with
      | Some end_idx =>
          let self :=
            if (current_tool_id self =? -1)%Z then
              set_streamed_args_for_tool
                (set_prev_tool_call_arr (set_current_tool_id self 0) []) []
            else self in
          let self :=
            set_prev_tool_call_arr self
              (grow (prev_tool_call_arr self) (current_tool_id self) (JDict [])) in
          let self :=
            set_streamed_args_for_tool self
              (grow (streamed_args_for_tool self) (current_tool_id self) []) in
          let extracted_tool_calls :=
            extract_tool_calls (take (end_idx + length tool_call_end_token) cur_text) in
          match tool_calls extracted_tool_calls with
          | [] => Returned self None
          | tool_call :: _ =>
              match json_loads (arguments (function tool_call)) with
              | None => Raised self
              | Some loaded =>
                  match setitem (prev_tool_call_arr self) (current_tool_id self)
                          (JDict [(txt "name", JStr (name (function tool_call)));
                                  (txt "arguments", loaded)]) with
                  | None => Raised self
                  | Some arr =>
                      let self := set_prev_tool_call_arr self arr in
                      match setitem (streamed_args_for_tool self) (current_tool_id self)
                              (arguments (function tool_call)) with
                      | None => Raised self
                      | Some args =>
                          let self := set_streamed_args_for_tool self args in
                          let delta :=
                            {| delta_content := content extracted_tool_calls;
                               delta_tool_calls :=
                                 [ {| index := current_tool_id self;
                                      delta_type := type tool_call;
                                      delta_function :=
                                        {| name := name (function tool_call);
                                           arguments := arguments (function tool_call) |}
                                   |} ] |} in
                          let self := set_current_tool_id self (current_tool_id self + 1) in
                          let self :=
                            set_buffer self
                              (drop (end_idx + length tool_call_end_token) cur_text) in
                          Returned self (Some delta)
                      end
                  end
              end
          end
      | None =>
          let self := set_buffer self (drop start_idx cur_text) in
          let content := rstrip_newline (take start_idx cur_text) in
          Returned self
            (Some {| delta_content := nonempty content; delta_tool_calls := [] |})
      end
  end.

(** One streaming session: the fragments are fed in order to the
    parser; the results of the calls that returned are collected, and
    an exception ends the session.  The state the parser is left in
    and whether an exception ended the session come with them. *)
Fixpoint session (self : TrinityToolParser) (deltas : list str)
  : list (option DeltaMessage) * TrinityToolParser * bool :=
  match deltas with
  | [] => ([], self, false)
  | delta_text :: deltas' =>
      match extract_tool_calls_streaming self delta_text with
      | Raised self' => ([], self', true)
      | Returned self' r =>
          match session self' deltas' with
          | (rs, self'', raised) => (r :: rs, self'', raised)
          end
      end
  end.
End Parser.

(** The tool-call fragments a sequence of results carries, in emission
    order. *)
Definition emitted (rs : list (option DeltaMessage)) : list DeltaToolCall :=
  rs ≫= (λ r, match r with Some m => delta_tool_calls m | None => [] end).

(** ** A reference instance of the library parameters

    [ref_json_loads] reads the part of JSON that the examples below are
    written in: objects, arrays, strings without escape sequences,
    integers, [true], [false] and [null], with JSON whitespace between
    tokens.  On such a text it returns what [json.loads] returns, and it
    rejects a text that is cut short or malformed as [json.loads] does.
    Texts with escape sequences or floating-point numbers are outside
    its domain (it answers [None] there). *)
Module RefJson.

Definition is_json_space (c : ascii) : bool :=
  let n := ord c in (n =? 32) || (n =? 9) || (n =? 10) || (n =? 13).

Fixpoint skip (s : str) : str :=
  match s with
  | c :: s' => if is_json_space c then skip s' else s
  | [] => []
  end.

(** The body of a string, after its opening quote. *)
Fixpoint scan_string (s : str) : option (str * str) :=
  match s with
  | [] => None
  | c :: s' =>
      if ord c =? 34 then Some ([], s')
      else if (ord c =? 92) || (ord c <? 32) then None
      else '(t, r) ← scan_string s'; Some (c :: t, r)
  end.

Definition is_digit (c : ascii) : bool := (48 <=? ord c) && (ord c <=? 57).

Fixpoint scan_digits (s : str) : str * str :=
  match s with
  | c :: s' =>
      if is_digit c then let '(d, r) := scan_digits s' in (c :: d, r) else ([], s)
  | [] => ([], [])
  end.

Definition digits_value (d : str) : Z :=
  fold_left (λ acc c, (10 * acc + (Z.of_nat (ord c) - 48))%Z) d 0%Z.

(** [0] or a digit string without a leading zero, of at most 4300
    digits: beyond that the conversion to [int] raises in CPython. *)
Definition scan_nat (s : str) : option (Z * str) :=
  match s with
  | c :: s' =>
      if ord c =? 48 then Some (0%Z, s')
      else if is_digit c then
        let '(d, r) := scan_digits s in
        if (4300 <? Z.of_nat (length d))%Z then None else Some (digits_value d, r)
      else None
  | [] => None
  end.

Definition scan_int (s : str) : option (Z * str) :=
  '(n, r) ← match s with
            | c :: s' =>
                if ord c =? 45 then '(n, r) ← scan_nat s'; Some ((- n)%Z, r)
                else scan_nat s
            | [] => None
            end;
  match r with
  | c :: _ => if (ord c =? 46) || (ord c =? 101) || (ord c =? 69) then None else Some (n, r)
  | [] => Some (n, r)
  end.

Fixpoint scan_value (n : nat) (s : str) : option (value * str) :=
  match n with
  | 0 => None
  | S n' =>
      let s := skip s in
      match s with
      | [] => None
      | c :: r =>
          if ord c =? 123 then
            match skip r with
            | c' :: r' => if ord c' =? 125 then Some (JDict [], r')
                          else scan_members n' (skip r) []
            | [] => None
            end
          else if ord c =? 91 then
            match skip r with
            | c' :: r' => if ord c' =? 93 then Some (JList [], r')
                          else scan_elements n' r []
            | [] => None
            end
          else if ord c =? 34 then
            '(t, r') ← scan_string r; Some (JStr t, r')
          else if startswith s (txt "true") then Some (JBool true, drop 4 s)
          else if startswith s (txt "false") then Some (JBool false, drop 5 s)
          else if startswith s (txt "null") then Some (JNone, drop 4 s)
          else '(i, r') ← scan_int s; Some (JInt i, r')
      end
  end
with scan_members (n : nat) (s : str) (acc : list (str * value)) : option (value * str) :=
  match n with
  | 0 => None
  | S n' =>
      match s with
      | c :: r =>
          if ord c =? 34 then
            '(k, r1) ← scan_string r;
            match skip r1 with
            | c1 :: r2 =>
                if ord c1 =? 58 then
                  '(v, r3) ← scan_value n' r2;
                  match skip r3 with
                  | c3 :: r4 =>
                      if ord c3 =? 44 then scan_members n' (skip r4) (dict_set acc k v)
                      else if ord c3 =? 125 then Some (JDict (dict_set acc k v), r4)
                      else None
                  | [] => None
                  end
                else None
            | [] => None
            end
          else None
      | [] => None
      end
  end
with scan_elements (n : nat) (s : str) (acc : list value) : option (value * str) :=
  match n with
  | 0 => None
  | S n' =>
      '(v, r1) ← scan_value n' s;
      match skip r1 with
      | c :: r2 =>
          if ord c =? 44 then scan_elements n' r2 (acc ++ [v])
          else if ord c =? 93 then Some (JList (acc ++ [v]), r2)
          else None
      | [] => None
      end
  end.

Definition ref_json_loads (s : str) : option value :=
  '(v, r) ← scan_value (2 * length s + 2) s;
  match skip r with
  | [] => Some v
  | _ => None
  end.

(** The field [name: str] takes a string and nothing else. *)
Definition ref_FunctionCall_name (v : value) : option str :=
  match v with
  | JStr s => Some s
  | _ => None
  end.

Definition ref_extract_tool_calls : str → ExtractedToolCallInformation :=
  extract_tool_calls ref_json_loads ref_FunctionCall_name.

Definition ref_session : TrinityToolParser → list str
    → list (option DeltaMessage) * TrinityToolParser * bool :=
  session ref_json_loads ref_FunctionCall_name.

End RefJson.

(** * Vocabulary of the statements *)

Import RefJson.

(** [sub] occurs in [s] at index [i]. *)
Definition occurs_at (s sub : str) (i : nat) : Prop :=
  i ≤ length s ∧ sub `prefix_of` drop i s.

(** An occurrence of [m] that lies across the end of [a] in [a ++ b]. *)
Definition straddles (a b m : str) : Prop :=
  ∃ i, i < length a < i + length m ∧ occurs_at (a ++ b) m i.

Definition straddles_b (a b m : str) : bool :=
  existsb (λ i, (length a <? i + length m) && startswith (drop i (a ++ b)) m)
    (seq 0 (length a)).

(** No occurrence of [m] in the concatenation of [deltas] lies across
    the boundary of two fragments. *)
Definition boundaries_ok (deltas : list str) (m : str) : bool :=
  forallb (λ k, negb (straddles_b (concat (take k deltas)) (concat (drop k deltas)) m))
    (seq 0 (S (length deltas))).

(** A text that holds neither narration delimiter. *)
Definition no_think (s : str) : Prop :=
  find s think_open = None ∧ find s think_close = None.

(** Whitespace, in the sense of [\s], at the ends of a text. *)
Fixpoint lstrip_space (s : str) : str :=
  match s with
  | c :: s' => if is_space c then lstrip_space s' else s
  | [] => []
  end.

Definition rstrip_space (s : str) : str := reverse (lstrip_space (reverse s)).

Definition strip_space (s : str) : str := rstrip_space (lstrip_space s).

Definition spaces (w : str) : Prop := Forall (λ c, is_space c = true) w.

Definition starts_nonspace (a : str) : Prop := ∀ c a', a = c :: a' → is_space c = false.

Definition ends_nonspace (a : str) : Prop := ∀ a' c, a = a' ++ [c] → is_space c = false.

(** What the two markers have in common: [<] at the head and nowhere
    else, and no whitespace. *)
Definition marker (m : str) : Prop :=
  ∃ t, m = "<"%char :: t ∧ Forall (λ c, c ≠ "<"%char ∧ is_space c = false) t.

(** The pattern after its group: [\s*</tool_call>]. *)
Definition re_tail (json : str) : str → option (str * str) :=
  re_space_star (re_lit tool_call_end_token (λ rest, Some (json, rest))).

(** The index the next completed call gets: the "not started" value
    [-1] counts as [0]. *)
Definition next_index (self : TrinityToolParser) : Z :=
  if (current_tool_id self =? -1)%Z then 0%Z else current_tool_id self.

(** The indices of the tool-call fragments of a sequence of results. *)
Definition indices (rs : list (option DeltaMessage)) : list Z := index <$> emitted rs.

(** The first-call initialisation and the two [while] loops of
    [extract_tool_calls_streaming], which run as soon as a balanced span
    is in the buffer. *)
Definition prepare (self : TrinityToolParser) : TrinityToolParser :=
  let self :=
    if (current_tool_id self =? -1)%Z then
      set_streamed_args_for_tool
        (set_prev_tool_call_arr (set_current_tool_id self 0) []) []
    else self in
  let self :=
    set_prev_tool_call_arr self
      (grow (prev_tool_call_arr self) (current_tool_id self) (JDict [])) in
  set_streamed_args_for_tool self
    (grow (streamed_args_for_tool self) (current_tool_id self) []).

(** The value stored under [key], when there is one. *)
Fixpoint dict_lookup (d : list (str * value)) (key : str) : option value :=
  match d with
  | [] => None
  | (k, v) :: d' => if bool_decide (k = key) then Some v else dict_lookup d' key
  end.

(** Equality of JSON values: the order of the keys of an object does
    not count. *)
Fixpoint json_equal (v w : value) {struct v} : bool :=
  match v, w with
  | JNone, JNone => true
  | JBool a, JBool b => Bool.eqb a b
  | JInt a, JInt b => (a =? b)%Z
  | JFloat a, JFloat b => bool_decide (a = b)
  | JStr a, JStr b => bool_decide (a = b)
  | JList l, JList l' =>
      (fix go (l l' : list value) : bool :=
         match l, l' with
         | [], [] => true
         | x :: l, y :: l' => json_equal x y && go l l'
         | _, _ => false
         end) l l'
  | JDict d, JDict d' =>
      (length d =? length d')
      && (fix all (d : list (str * value)) : bool :=
            match d with
            | [] => true
            | (k, x) :: d =>
                match dict_lookup d' k with
                | Some y => json_equal x y
                | None => false
                end && all d
            end) d
  | _, _ => false
  end.

(** A tool-call block in a text: the whitespace before it and, between
    its markers, the payload with whitespace on both sides. *)
Record block : Type := {
  sep : str;
  lead : str;
  payload : str;
  trail : str;
}.

Definition block_text (b : block) : str :=
  sep b ++ tool_call_start_token ++ lead b ++ payload b ++ trail b ++ tool_call_end_token.

(** The three gaps are whitespace and the payload has none at its
    ends. *)
Definition block_shape (b : block) : Prop :=
  spaces (sep b) ∧ spaces (lead b) ∧ spaces (trail b)
  ∧ strip_space (payload b) = payload b.

(** The payload of [b] is the text of a JSON object with the name [n]
    and the arguments [a]. *)
Definition well_formed (json_loads : str → option value)
    (b : block) (n : str) (a : value) : Prop :=
  block_shape b
  ∧ ∃ d, json_loads (payload b) = Some (JDict d)
         ∧ dict_lookup d (txt "name") = Some (JStr n)
         ∧ dict_lookup d (txt "arguments") = Some a.

(** ** Example texts *)

Definition payload_a : str := py "{'name': 'a', 'arguments': {'x': 1}}".
Definition payload_b : str := py "{'name': 'b', 'arguments': {}}".
Definition block_a : str := tool_call_start_token ++ payload_a ++ tool_call_end_token.
Definition block_b : str :=
  tool_call_start_token ++ [newline] ++ payload_b ++ [newline] ++ tool_call_end_token.
Definition function_a : FunctionCall := {| name := txt "a"; arguments := py "{'x': 1}" |}.
Definition function_b : FunctionCall := {| name := txt "b"; arguments := txt "{}" |}.

Definition block_of (l j t : str) : block :=
  {| sep := []; lead := l; payload := j; trail := t |}.

Definition payload_end_inside : str :=
  py "{'name': 'f', 'arguments': {'q': '</tool_call>'}}".
Definition block_end_inside : block := block_of [] payload_end_inside [].

Definition payload_xy : str := py "{'name': 'f', 'arguments': {'x': 1, 'y': 2}}".
Definition payload_yx : str := py "{ 'arguments' : {'y':2,'x':1}, 'name' : 'f' }".
Definition payload_xy_spaced : str := py "{'name':'f', 'arguments':{ 'x' :1, 'y': 2 }}".

Definition dict_xy : list (str * value) :=
  [(txt "name", JStr (txt "f"));
   (txt "arguments", JDict [(txt "x", JInt 1); (txt "y", JInt 2)])].
Definition call_xy : ToolCall :=
  {| type := txt "function";
     function := {| name := txt "f"; arguments := py "{'x': 1, 'y': 2}" |} |}.

(** The arguments value of a payload, as [ref_json_loads] reads it. *)
Definition ref_arguments (j : str) : option value :=
  match ref_json_loads j with
  | Some (JDict d) => dict_lookup d (txt "arguments")
  | _ => None
  end.

Definition ref_tool_call_of_json : str → option ToolCall :=
  tool_call_of_json ref_json_loads ref_FunctionCall_name.

(** The texts of the test suite. *)
Definition weather_block : str :=
  txt "<tool_call>" ++ [newline]
  ++ py "{'name': 'get_weather', 'arguments': {'location': 'Paris'}}" ++ [newline]
  ++ txt "</tool_call>".
Definition time_block : str :=
  txt "<tool_call>" ++ [newline]
  ++ py "{'name': 'get_time', 'arguments': {'timezone': 'UTC'}}" ++ [newline]
  ++ txt "</tool_call>".

(** ** Vocabulary of the further properties *)

(** What a tool-call fragment leaves in [prev_tool_call_arr]: its name
    and the value [json.loads] reads from its arguments text. *)
Definition recorded (json_loads : str → option value)
    (v : value) (tc : DeltaToolCall) : Prop :=
  ∃ loaded,
    json_loads (arguments (delta_function tc)) = Some loaded
    ∧ v = JDict [(txt "name", JStr (name (delta_function tc)));
                 (txt "arguments", loaded)].

(** The call index and the two per-index lists of a parser that has
    emitted the tool-call fragments [em]: one entry per fragment, in
    emission order, and at most one further slot. *)
Definition books (json_loads : str → option value)
    (self : TrinityToolParser) (em : list DeltaToolCall) : Prop :=
  next_index self = Z.of_nat (length em)
  ∧ (-1 ≤ current_tool_id self)%Z
  ∧ length (prev_tool_call_arr self) = length (streamed_args_for_tool self)
  ∧ length em ≤ length (streamed_args_for_tool self) ≤ S (length em)
  ∧ take (length em) (streamed_args_for_tool self)
    = (λ tc, arguments (delta_function tc)) <$> em
  ∧ Forall2 (recorded json_loads) (take (length em) (prev_tool_call_arr self)) em.

(** The message of a call that carries content only. *)
Definition content_only (c : str) : option DeltaMessage :=
  Some {| delta_content := nonempty c; delta_tool_calls := [] |}.

(** The loop of [test_extract_tool_calls_streaming_basic] over the
    results of the calls: it skips a call that returned nothing, appends
    a content that is not empty to [accumulated_content] and files each
    tool-call fragment in [tool_calls_by_index] under its index. *)
Definition test_loop (results : list (option DeltaMessage)) : str * gmap Z DeltaToolCall :=
  foldl (λ '(accumulated_content, tool_calls_by_index) delta_message,
           match delta_message with
           | None => (accumulated_content, tool_calls_by_index)
           | Some m =>
               (match delta_content m with
                | Some ((_ :: _) as c) => accumulated_content ++ c
                | _ => accumulated_content
                end,
                foldl (λ by_index tool_call_chunk,
                         <[index tool_call_chunk := tool_call_chunk]> by_index)
                  tool_calls_by_index (delta_tool_calls m))
           end)
    ([], ∅) results.

(** Fragments of narration: the start marker is cut by the boundary of
    the last two. *)
Definition narration_deltas : list str :=
  [txt "Hello, "; txt "<think>hm</think>"; txt "world <tool_"; txt "call>"].

(** A parser that holds two complete blocks in its buffer. *)
Definition holding_two_blocks : TrinityToolParser := set_buffer init (block_a ++ block_b).

(** A parser that holds the beginning of a block. *)
Definition holding_open_block : TrinityToolParser := set_buffer init (take 20 block_a).

(** Two blocks in two fragments, the first block cut in two. *)
Definition two_block_deltas : list str := [take 20 block_a; drop 20 block_a ++ block_b].





(** Case analysis on the integer comparisons of a goal. *)
Ltac zeqb :=
  repeat match goal with
         | |- context [(?a =? ?b)%Z] => destruct (Z.eqb_spec a b)
         | H : context [(?a =? ?b)%Z] |- _ => destruct (Z.eqb_spec a b)
         end.

(** * Strings *)

(** ** Occurrences of a substring *)

Lemma startswith_prefix (s p : str) : startswith s p = true ↔ p `prefix_of` s.
Proof.
  revert s. induction p as [|a p IH]; intros s; simpl.
  - split; [intros _; apply prefix_nil | done].
  - destruct s as [|b s].
    + split; [done | intros H; by apply prefix_nil_inv in H].
    + rewrite andb_true_iff, IH, Ascii.eqb_eq. split.
      * intros [-> H]. by apply prefix_cons.
      * intros H. split; [by apply prefix_cons_inv_1 in H | by apply prefix_cons_inv_2 in H].
Qed.

Lemma startswith_false (s p : str) : startswith s p = false ↔ ¬ p `prefix_of` s.
Proof. rewrite <- startswith_prefix. by destruct (startswith s p). Qed.

Lemma startswith_app (p r : str) : startswith (p ++ r) p = true.
Proof. apply startswith_prefix. by apply prefix_app_r. Qed.

Lemma occurs_at_length (s sub : str) i :
  occurs_at s sub i → i + length sub ≤ length s.
Proof.
  intros [Hi [k Hk]]. apply (f_equal length) in Hk.
  rewrite length_drop, length_app in Hk. lia.
Qed.

Lemma occurs_at_0 (s sub : str) : occurs_at s sub 0 ↔ sub `prefix_of` s.
Proof. unfold occurs_at. simpl. split; [by intros [_ ?] | intros; split; [lia | done]]. Qed.

Lemma occurs_at_S (c : ascii) (s sub : str) i :
  occurs_at (c :: s) sub (S i) ↔ occurs_at s sub i.
Proof. unfold occurs_at. simpl. split; intros [? ?]; split; [lia | done | lia | done]. Qed.

Lemma occurs_at_split (s sub : str) i :
  occurs_at s sub i ↔ ∃ r, s = take i s ++ sub ++ r ∧ i ≤ length s.
Proof.
  split.
  - intros [Hi [r Hr]]. exists r. split; [|done].
    by rewrite <- Hr, take_drop.
  - intros (r & Hr & Hi). split; [done|]. exists r.
    rewrite Hr at 1. rewrite drop_app_length'; [done|]. rewrite length_take. lia.
Qed.

Lemma occurs_at_app (a sub r : str) : occurs_at (a ++ sub ++ r) sub (length a).
Proof.
  split; [rewrite length_app; lia|]. rewrite drop_app_length. by apply prefix_app_r.
Qed.

Lemma find_cons c (s sub : str) :
  find (c :: s) sub = if startswith (c :: s) sub then Some 0 else S <$> find s sub.
Proof. done. Qed.

Lemma find_cons_None c (s sub : str) : find (c :: s) sub = None → find s sub = None.
Proof.
  rewrite find_cons. destruct (startswith (c :: s) sub); [done|]. by intros ?%fmap_None.
Qed.

(** [find] returns the first occurrence. *)
Lemma find_Some (s sub : str) i :
  find s sub = Some i ↔ occurs_at s sub i ∧ ∀ j, j < i → ¬ occurs_at s sub j.
Proof.
  revert i. induction s as [|c s IH]; intros i.
  - simpl. destruct (startswith [] sub) eqn:E.
    + apply startswith_prefix in E. split.
      * intros [= <-]. split; [by apply occurs_at_0 | lia].
      * intros [[Hi _] _]. simpl in Hi. f_equal. lia.
    + apply startswith_false in E. split; [done|].
      intros [[Hi H] _]. simpl in Hi. replace i with 0 in H by lia. done.
  - simpl. destruct (startswith (c :: s) sub) eqn:E.
    + apply startswith_prefix in E. split.
      * intros [= <-]. split; [by apply occurs_at_0 | lia].
      * intros [_ Hmin]. destruct i as [|i]; [done|].
        exfalso. apply (Hmin 0); [lia | by apply occurs_at_0].
    + apply startswith_false in E. destruct i as [|i].
      * split; [by destruct (find s sub) | ].
        intros [H0 _]. by apply occurs_at_0 in H0.
      * rewrite fmap_Some. split.
        -- intros (j & Hj & [= ->]). apply IH in Hj as [Hocc Hmin]. split.
           ++ by apply occurs_at_S.
           ++ intros [|k] Hk; [by rewrite occurs_at_0 | rewrite occurs_at_S; apply Hmin; lia].
        -- intros [Hocc Hmin]. exists i. split; [|done]. apply IH. split.
           ++ by apply occurs_at_S in Hocc.
           ++ intros k Hk Hc. apply (Hmin (S k)); [lia | by apply occurs_at_S].
Qed.

Lemma find_None (s sub : str) : find s sub = None ↔ ∀ j, ¬ occurs_at s sub j.
Proof.
  induction s as [|c s IH].
  - simpl. destruct (startswith [] sub) eqn:E.
    + apply startswith_prefix in E. split; [done|].
      intros H. exfalso. apply (H 0). by apply occurs_at_0.
    + apply startswith_false in E. split; [|done].
      intros _ j [Hj H]. simpl in Hj. replace j with 0 in H by lia. done.
  - simpl. destruct (startswith (c :: s) sub) eqn:E.
    + apply startswith_prefix in E. split; [done|].
      intros H. exfalso. apply (H 0). by apply occurs_at_0.
    + apply startswith_false in E. rewrite fmap_None, IH. split.
      * intros H [|j]; [by rewrite occurs_at_0 | rewrite occurs_at_S; apply H].
      * intros H j Hj. apply (H (S j)). by apply occurs_at_S.
Qed.

Lemma find_is_Some (s sub : str) i : occurs_at s sub i → is_Some (find s sub).
Proof.
  intros H. destruct (find s sub) eqn:E; [by eexists|].
  rewrite find_None in E. by apply E in H.
Qed.

Lemma find_le (s sub : str) i j : find s sub = Some i → occurs_at s sub j → i ≤ j.
Proof.
  intros [_ Hmin]%find_Some Hj. destruct (decide (i ≤ j)); [done|].
  exfalso. apply (Hmin j); [lia | done].
Qed.

Lemma contains_true (s sub : str) : contains s sub = true ↔ ∃ i, occurs_at s sub i.
Proof.
  unfold contains. destruct (find s sub) as [i|] eqn:E.
  - apply find_Some in E as [H _]. split; [by exists i | done].
  - rewrite find_None in E. split; [done | intros [i Hi]; by apply E in Hi].
Qed.

Lemma contains_false (s sub : str) : contains s sub = false ↔ find s sub = None.
Proof. unfold contains. by destruct (find s sub). Qed.

(** ** Occurrences in a concatenation *)

Lemma occurs_at_drop (s m : str) n j :
  m ≠ [] → occurs_at (drop n s) m j → occurs_at s m (n + j).
Proof.
  intros Hm [Hj Hp]. rewrite drop_drop in Hp. split; [|done].
  rewrite length_drop in Hj. destruct (decide (n ≤ length s)); [lia|].
  rewrite drop_ge in Hp by lia. by apply prefix_nil_inv in Hp.
Qed.

Lemma find_drop_None (s m : str) n : m ≠ [] → find s m = None → find (drop n s) m = None.
Proof.
  rewrite !find_None. intros Hm H j Hj. by apply (H (n + j)), occurs_at_drop.
Qed.

Lemma find_app_l (a b m : str) i : find a m = Some i → find (a ++ b) m = Some i.
Proof.
  rewrite !find_Some. intros [Hocc Hmin]. pose proof (occurs_at_length _ _ _ Hocc) as Hlen.
  destruct Hocc as [Hi [r Hr]]. split.
  - split; [rewrite length_app; lia|]. exists (r ++ b).
    rewrite drop_app_le by lia. by rewrite Hr, <- app_assoc.
  - intros j Hj [Hj' [r' Hr']]. apply (Hmin j Hj). split; [lia|].
    rewrite drop_app_le in Hr' by lia.
    apply (f_equal (take (length m))) in Hr'. rewrite take_app_length in Hr'.
    rewrite take_app_le in Hr' by (rewrite length_drop; lia).
    rewrite <- Hr'. apply prefix_take.
Qed.

Lemma find_from_app_l (a b m : str) s i :
  find_from a m s = Some i → find_from (a ++ b) m s = Some i.
Proof.
  unfold find_from. intros (q & Hq & ->)%fmap_Some.
  assert (s ≤ length a ∨ length a < s) as [Hs|Hs] by lia.
  - rewrite drop_app_le by done. by rewrite (find_app_l _ _ _ _ Hq).
  - rewrite drop_ge in Hq by lia. rewrite drop_app_ge by lia.
    destruct m as [|c m].
    + apply find_Some in Hq as [[Hq _] _]. simpl in Hq.
      replace q with 0 by lia. by destruct (drop _ b).
    + done.
Qed.

Lemma find_from_bound (a m : str) s i :
  m ≠ [] → find_from a m s = Some i → s ≤ i ∧ i + length m ≤ length a.
Proof.
  unfold find_from. intros Hm (q & Hq & ->)%fmap_Some.
  apply find_Some in Hq as [Hocc%occurs_at_drop%occurs_at_length _]; [lia | done].
Qed.

Lemma occurs_at_app_l (a b m : str) i : occurs_at a m i → occurs_at (a ++ b) m i.
Proof.
  intros [Hi [r Hr]]. split; [rewrite length_app; lia|].
  exists (r ++ b). rewrite drop_app_le by done. by rewrite Hr, <- app_assoc.
Qed.

Lemma occurs_at_app_r (a b m : str) i : occurs_at (a ++ b) m (length a + i) ↔ occurs_at b m i.
Proof.
  unfold occurs_at. rewrite length_app, drop_app_add'; [|done]. split; intros [??]; split; (lia || done).
Qed.

Lemma occurs_at_app_inside (a b m : str) i :
  occurs_at (a ++ b) m i → i + length m ≤ length a → occurs_at a m i.
Proof.
  intros [Hi [r Hr]] Hlen. split; [lia|].
  rewrite drop_app_le in Hr by lia.
  apply (f_equal (take (length m))) in Hr. rewrite take_app_length in Hr.
  rewrite take_app_le in Hr by (rewrite length_drop; lia).
  rewrite <- Hr. apply prefix_take.
Qed.

Lemma find_take (a m : str) i n :
  find a m = Some i → i + length m ≤ n → find (take n a) m = Some i.
Proof.
  rewrite !find_Some. intros [Hocc Hmin] Hn.
  pose proof (occurs_at_length _ _ _ Hocc) as Hlen.
  rewrite <- (take_drop n a) in Hocc. split.
  - apply occurs_at_app_inside in Hocc; [done|]. rewrite length_take. lia.
  - intros j Hj Hc. apply (Hmin j Hj). rewrite <- (take_drop n a). by apply occurs_at_app_l.
Qed.

Lemma find_app_skip (a b m : str) :
  (∀ i, occurs_at (a ++ b) m i → length a ≤ i) →
  find (a ++ b) m = (λ p, length a + p) <$> find b m.
Proof.
  intros Hskip. destruct (find b m) as [p|] eqn:E; simpl.
  - apply find_Some in E as [Hocc Hmin]. apply find_Some. split.
    + by apply occurs_at_app_r.
    + intros j Hj Hc. pose proof (Hskip j Hc) as Hle.
      apply (Hmin (j - length a)); [lia|].
      apply (occurs_at_app_r a). by replace (length a + (j - length a)) with j by lia.
  - rewrite find_None in E. apply find_None. intros j Hc.
    pose proof (Hskip j Hc) as Hle. apply (E (j - length a)).
    apply (occurs_at_app_r a). by replace (length a + (j - length a)) with j by lia.
Qed.

Lemma straddles_app_l (x a b m : str) : straddles a b m → straddles (x ++ a) b m.
Proof.
  intros (i & Hi & Hocc). exists (length x + i). split; [rewrite length_app; lia|].
  rewrite <- app_assoc. by apply occurs_at_app_r.
Qed.

Lemma occurs_at_before (a b m : str) i :
  find a m = None → ¬ straddles a b m → occurs_at (a ++ b) m i → length a ≤ i.
Proof.
  intros Hnone Hstr Hocc. destruct (decide (length a ≤ i)); [done|]. exfalso.
  destruct (decide (i + length m ≤ length a)).
  - rewrite find_None in Hnone. apply (Hnone i). by eapply occurs_at_app_inside.
  - apply Hstr. exists i. split; [lia | done].
Qed.

Lemma straddles_b_false (a b m : str) : straddles_b a b m = false → ¬ straddles a b m.
Proof.
  intros Hb (i & Hi & [_ Hocc]). apply not_true_iff_false in Hb. apply Hb.
  apply existsb_exists. exists i. split.
  - apply in_seq. lia.
  - apply andb_true_iff. split; [apply Nat.ltb_lt; lia | by apply startswith_prefix].
Qed.

Lemma boundaries_ok_spec (deltas : list str) (m : str) :
  boundaries_ok deltas m = true →
  ∀ k, ¬ straddles (concat (take k deltas)) (concat (drop k deltas)) m.
Proof.
  intros H k. unfold boundaries_ok in H. rewrite forallb_forall in H.
  destruct (decide (k ≤ length deltas)) as [Hk|Hk].
  - apply straddles_b_false, negb_true_iff, H, in_seq. lia.
  - rewrite take_ge, drop_ge by lia. simpl.
    intros (i & Hi & Hocc%occurs_at_length). rewrite app_nil_r in Hocc. lia.
Qed.

Lemma length_ind (P : str → Prop) :
  (∀ s, (∀ t, length t < length s → P t) → P s) → ∀ s, P s.
Proof.
  intros H s. remember (length s) as n eqn:En. revert s En.
  induction n as [n IH] using lt_wf_ind. intros s ->.
  apply H. intros t Ht. by apply (IH (length t)).
Qed.

(** ** [replace] *)

Lemma replace_fuel_enough n m (s old new : str) :
  old ≠ [] → length s ≤ n → length s ≤ m →
  replace_fuel n s old new = replace_fuel m s old new.
Proof.
  intros Hold. revert m s. induction n as [|n IH]; intros m s Hn Hm.
  - destruct s; [|simpl in Hn; lia]. destruct m; [done|].
    simpl. by destruct old.
  - destruct m as [|m].
    + destruct s; [|simpl in Hm; lia]. simpl. by destruct old.
    + simpl. destruct (startswith s old) eqn:E.
      * f_equal. apply startswith_prefix in E as [r ->].
        rewrite length_app in Hn, Hm. destruct old; [done|]. simpl in Hn, Hm.
        apply IH; rewrite length_drop, length_app; simpl; lia.
      * destruct s as [|c s]; [done|]. simpl in Hn, Hm. f_equal. apply IH; lia.
Qed.

Lemma replace_unfold (s old new : str) :
  old ≠ [] →
  replace s old new =
    if startswith s old then new ++ replace (drop (length old) s) old new
    else match s with
         | [] => []
         | c :: s' => c :: replace s' old new
         end.
Proof.
  intros Hold. unfold replace at 1. destruct s as [|c s].
  - simpl. by destruct old.
  - cbn [length replace_fuel]. destruct (startswith (c :: s) old) eqn:E.
    + f_equal. apply replace_fuel_enough; [done|..]; rewrite ?length_drop; [|lia].
      destruct old; [done|]. simpl. lia.
    + done.
Qed.

Lemma replace_absent (s old new : str) :
  old ≠ [] → find s old = None → replace s old new = s.
Proof.
  intros Hold. induction s as [|c s IH]; intros H.
  - rewrite replace_unfold by done. by destruct old.
  - rewrite replace_unfold by done. simpl in H.
    destruct (startswith (c :: s) old); [done|].
    apply fmap_None in H. by rewrite IH.
Qed.

Lemma replace_length_le (s old : str) :
  old ≠ [] → length (replace s old []) ≤ length s.
Proof.
  intros Hold. induction s as [s IH] using length_ind.
  rewrite replace_unfold by done. destruct (startswith s old) eqn:E.
  - simpl. etrans; [apply IH|]; rewrite length_drop; [|lia].
    apply startswith_prefix in E as [r ->]. rewrite length_app.
    destruct old; [done|]. simpl. lia.
  - destruct s as [|c s]; [done|]. simpl. specialize (IH s). simpl in IH. lia.
Qed.

Lemma replace_length_lt (s old : str) :
  old ≠ [] → is_Some (find s old) → length (replace s old []) < length s.
Proof.
  intros Hold. induction s as [|c s IH]; intros [i Hi].
  - simpl in Hi. destruct (startswith [] old) eqn:E; [|done].
    apply startswith_prefix, prefix_nil_inv in E. done.
  - rewrite replace_unfold by done. simpl in Hi.
    destruct (startswith (c :: s) old) eqn:E.
    + simpl. eapply Nat.le_lt_trans; [by apply replace_length_le|].
      rewrite length_drop. simpl. destruct old; [done|]. simpl. lia.
    + simpl. apply fmap_Some in Hi as (j & Hj & _).
      apply -> Nat.succ_lt_mono. apply IH. by eexists.
Qed.

(** * Narration delimiters *)

Lemma think_open_ne : think_open ≠ []. Proof. done. Qed.
Lemma think_close_ne : think_close ≠ []. Proof. done. Qed.

Lemma strip_no_think (s : str) : no_think s → _strip_think_tags s = s.
Proof.
  intros [Ho Hc]. unfold _strip_think_tags.
  rewrite (replace_absent s) by done. by apply replace_absent.
Qed.

Lemma strip_length_le (s : str) : length (_strip_think_tags s) ≤ length s.
Proof.
  unfold _strip_think_tags.
  etrans; [by apply replace_length_le | by apply replace_length_le].
Qed.

Lemma strip_fixed (s : str) : _strip_think_tags s = s ↔ no_think s.
Proof.
  split; [|apply strip_no_think].
  intros H. apply (f_equal length) in H. unfold _strip_think_tags in H.
  pose proof (replace_length_le s think_open think_open_ne) as H1.
  pose proof (replace_length_le (replace s think_open []) think_close think_close_ne) as H2.
  split.
  - destruct (find s think_open) eqn:E; [|done].
    pose proof (replace_length_lt s think_open think_open_ne) as H3.
    rewrite E in H3. specialize (H3 (mk_is_Some _ _ eq_refl)). lia.
  - destruct (find s think_open) eqn:E.
    + pose proof (replace_length_lt s think_open think_open_ne) as H3.
      rewrite E in H3. specialize (H3 (mk_is_Some _ _ eq_refl)). lia.
    + rewrite (replace_absent s think_open) in H by done.
      destruct (find s think_close) eqn:E'; [|done].
      pose proof (replace_length_lt s think_close think_close_ne) as H3.
      rewrite E' in H3. specialize (H3 (mk_is_Some _ _ eq_refl)). lia.
Qed.

(** C6 (amended).  Stripping twice equals stripping once exactly when the
    once-stripped text holds no narration delimiter. *)
Theorem strip_twice_iff (s : str) :
  _strip_think_tags (_strip_think_tags s) = _strip_think_tags s
  ↔ no_think (_strip_think_tags s).
Proof. apply strip_fixed. Qed.

(** C6 fails as stated: removing the delimiter in the middle of
    [<thi<think>nk>] leaves a new delimiter, which a second pass
    removes. *)
Lemma strip_not_idempotent :
  _strip_think_tags (txt "<thi<think>nk>") = txt "<think>"
  ∧ _strip_think_tags (_strip_think_tags (txt "<thi<think>nk>")) = []
  ∧ _strip_think_tags (_strip_think_tags (txt "<thi<think>nk>"))
    ≠ _strip_think_tags (txt "<thi<think>nk>").
Proof. by vm_compute. Qed.

Lemma no_think_sub (a x b : str) : no_think (a ++ x ++ b) → no_think x.
Proof.
  unfold no_think. rewrite !find_None. intros [Ho Hc].
  split; intros j Hj; [apply (Ho (length a + j)) | apply (Hc (length a + j))];
    by apply occurs_at_app_r, occurs_at_app_l.
Qed.

Lemma no_think_prefix (a b : str) : no_think (a ++ b) → no_think a.
Proof. intros H. apply (no_think_sub [] a b). done. Qed.

Lemma no_think_suffix (a b : str) : no_think (a ++ b) → no_think b.
Proof. intros H. apply (no_think_sub a b []). by rewrite app_nil_r. Qed.

(** * The block pattern *)

(** ** Whitespace *)

Lemma lstrip_space_split (s : str) :
  ∃ w, s = w ++ lstrip_space s ∧ spaces w ∧ starts_nonspace (lstrip_space s).
Proof.
  induction s as [|c s (w & Hw & Hsp & Hns)].
  - exists []. repeat split; [constructor | by intros ???].
  - simpl. destruct (is_space c) eqn:E.
    + exists (c :: w). repeat split; [by rewrite Hw at 1 | by constructor | done].
    + exists []. repeat split; [constructor | intros d a' [= <- _]; done].
Qed.

Lemma lstrip_space_spaces (w t : str) : spaces w → lstrip_space (w ++ t) = lstrip_space t.
Proof. induction 1 as [|c w Hc _ IH]; [done|]. simpl. by rewrite Hc. Qed.

Lemma lstrip_space_nonspace (s : str) : starts_nonspace s → lstrip_space s = s.
Proof. destruct s as [|c s]; [done|]. intros H. simpl. by rewrite (H c s). Qed.

Lemma starts_nonspace_take (s : str) n : starts_nonspace s → starts_nonspace (take n s).
Proof.
  intros H c a E. destruct s as [|d s]; [by destruct n|].
  destruct n; [done|]. simpl in E. injection E as -> _. by apply (H c s).
Qed.

Lemma rstrip_space_split (s : str) :
  ∃ w, s = rstrip_space s ++ w ∧ spaces w ∧ ends_nonspace (rstrip_space s).
Proof.
  unfold rstrip_space.
  destruct (lstrip_space_split (reverse s)) as (w & Hw & Hsp & Hns).
  exists (reverse w). repeat split.
  - by rewrite <- reverse_app, <- Hw, reverse_involutive.
  - unfold spaces. by apply Forall_reverse.
  - intros a' c E. apply (f_equal reverse) in E.
    rewrite reverse_involutive, reverse_snoc in E. by apply (Hns c (reverse a')).
Qed.

Lemma ends_nonspace_tail c (a : str) : ends_nonspace (c :: a) → ends_nonspace a.
Proof. intros H a' d ->. by apply (H (c :: a') d). Qed.

Lemma ends_nonspace_not_spaces (a : str) : a ≠ [] → ends_nonspace a → ¬ spaces a.
Proof.
  intros Hne H Hsp. destruct a as [|c a _] using rev_ind; [done|].
  apply Forall_app in Hsp as [_ Hc]. inversion_clear Hc as [|?? Hc' _].
  by rewrite (H a c) in Hc'.
Qed.

Lemma rstrip_space_nonspace (a w : str) :
  ends_nonspace a → spaces w → rstrip_space (a ++ w) = a.
Proof.
  intros Ha Hw. unfold rstrip_space. rewrite reverse_app.
  rewrite lstrip_space_spaces by (by apply Forall_reverse).
  rewrite lstrip_space_nonspace; [by rewrite reverse_involutive|].
  intros c a' E. apply (Ha (reverse a') c).
  by rewrite <- reverse_cons, <- E, reverse_involutive.
Qed.

(** A text that [strip_space] leaves as it is has no whitespace at
    either end. *)
Lemma strip_space_fixed (s : str) :
  strip_space s = s → starts_nonspace s ∧ ends_nonspace s.
Proof.
  intros H. unfold strip_space in H.
  destruct (lstrip_space_split s) as (w & Hw & _ & Hs).
  destruct (rstrip_space_split (lstrip_space s)) as (w' & Hw' & _ & He).
  rewrite H in Hw', He.
  assert (w = [] ∧ w' = []) as [-> ->].
  { pose proof (f_equal length Hw) as Hl. pose proof (f_equal length Hw') as Hl'.
    rewrite !length_app in Hl, Hl'. split; apply nil_length_inv; lia. }
  rewrite app_nil_r in Hw'. rewrite Hw' in Hs. done.
Qed.

(** ** Markers

    Both markers start with [<] and have no other [<] and no
    whitespace. *)

Lemma marker_start : marker tool_call_start_token.
Proof. eexists. split; [done|]. repeat constructor; done. Qed.

Lemma marker_end : marker tool_call_end_token.
Proof. eexists. split; [done|]. repeat constructor; done. Qed.

Lemma marker_ne m : marker m → m ≠ [].
Proof. by intros (t & -> & _). Qed.

Lemma startswith_marker_space m c (s : str) :
  marker m → is_space c = true → startswith (c :: s) m = false.
Proof.
  intros (t & -> & _) Hc. cbn [startswith].
  destruct (Ascii.eqb_spec "<"%char c) as [<-|]; [by vm_compute in Hc | done].
Qed.

Lemma find_marker_spaces m (w x : str) :
  marker m → spaces w → find (w ++ x) m = (λ q, length w + q) <$> find x m.
Proof.
  intros Hm. induction 1 as [|c w Hc _ IH]; simpl.
  - by destruct (find x m).
  - change (startswith (c :: w ++ x) m) with (startswith (c :: (w ++ x)) m).
    rewrite startswith_marker_space, IH by done. by destruct (find x m).
Qed.

Lemma prefix_app_drop (m a y : str) :
  m `prefix_of` a ++ y → length a ≤ length m → drop (length a) m `prefix_of` y.
Proof.
  intros [r Hr] Hlen. exists r. apply (f_equal (drop (length a))) in Hr.
  rewrite drop_app_length, drop_app_le in Hr by done. done.
Qed.

Lemma marker_inner m k :
  marker m → 0 < k < length m →
  ∃ c r, drop k m = c :: r ∧ c ≠ "<"%char ∧ is_space c = false.
Proof.
  intros (t & -> & Ht) Hk. destruct k as [|k]; [lia|]. simpl in *.
  destruct (drop k t) as [|c r] eqn:E.
  - apply (f_equal length) in E. rewrite length_drop in E. simpl in E. lia.
  - exists c, r. split; [done|].
    apply (Forall_drop _ k) in Ht. rewrite E in Ht. by inversion Ht.
Qed.

Lemma spaces_head_marker m (w y : str) c r :
  marker m → spaces w → c ≠ "<"%char → is_space c = false →
  ¬ (c :: r) `prefix_of` w ++ m ++ y.
Proof.
  intros (t & -> & _) Hw Hc Hsp [x Hx]. destruct Hw as [|c' w Hc' _]; simpl in Hx.
  - injection Hx as <- _. done.
  - injection Hx as <- _. by rewrite Hc' in Hsp.
Qed.

Lemma find_head (m r : str) : find (m ++ r) m = Some 0.
Proof. apply find_Some. split; [|lia]. apply occurs_at_0. by apply prefix_app_r. Qed.

(** The end marker after a payload that does not hold it. *)
Lemma find_marker_after m (j w rest : str) :
  marker m → find j m = None → spaces w →
  find (j ++ w ++ m ++ rest) m = Some (length j + length w).
Proof.
  intros Hm Hj Hw. apply find_Some. split.
  - rewrite app_assoc, <- length_app. apply occurs_at_app.
  - intros i Hi Hocc. destruct (decide (length j ≤ i)) as [Hle|Hlt].
    + replace i with (length j + (i - length j)) in Hocc by lia.
      apply occurs_at_app_r in Hocc.
      assert (find (w ++ m ++ rest) m = Some (length w + 0)) as Hf.
      { rewrite find_marker_spaces by done.
          by rewrite find_head. }
      pose proof (find_le _ _ _ _ Hf Hocc). lia.
    + destruct (decide (i + length m ≤ length j)) as [Hin|Hout].
      * rewrite find_None in Hj. apply (Hj i). by eapply occurs_at_app_inside.
      * destruct Hocc as [_ Hp]. rewrite drop_app_le in Hp by lia.
        apply prefix_app_drop in Hp; [|rewrite length_drop; lia].
        rewrite length_drop in Hp.
        destruct (marker_inner m (length j - i) Hm) as (c & r & Hd & Hc & Hsp); [lia|].
        rewrite Hd in Hp. by eapply spaces_head_marker.
Qed.

Lemma strip_space_payload (l j t : str) :
  spaces l → spaces t → starts_nonspace j → ends_nonspace j →
  strip_space (l ++ j ++ t) = j.
Proof.
  intros Hl Ht Hs He. unfold strip_space. rewrite lstrip_space_spaces by done.
  destruct j as [|c j].
  - simpl. rewrite <- (app_nil_r t), lstrip_space_spaces by done. done.
  - rewrite lstrip_space_nonspace.
    + by apply rstrip_space_nonspace.
    + intros c' a' [= <- _]. by apply (Hs c j).
Qed.

(** ** The block pattern *)

Lemma re_space_star_skip {R} (k : str → option R) (s : str) :
  (∀ c t, is_space c = true → k t = None → k (c :: t) = None) →
  re_space_star k s = k (lstrip_space s).
Proof.
  intros Hk.
  assert (Hback : ∀ t, k (lstrip_space t) = None → k t = None).
  { induction t as [|c t IH]; [done|]. simpl.
    destruct (is_space c) eqn:E; [|done]. intros H. apply Hk; auto. }
  induction s as [|c s IH]; [done|]. simpl.
  destruct (is_space c) eqn:E; [|done]. rewrite IH.
  destruct (k (lstrip_space s)) eqn:E'; [done|].
  apply Hk; auto.
Qed.

Lemma re_tail_eq (json s : str) :
  re_tail json s =
    if startswith (lstrip_space s) tool_call_end_token
    then Some (json, drop (length tool_call_end_token) (lstrip_space s))
    else None.
Proof.
  unfold re_tail. rewrite re_space_star_skip; [done|].
  intros c t Hc _. unfold re_lit.
  by rewrite (startswith_marker_space _ _ _ marker_end Hc).
Qed.

Lemma re_dot_star_lazy_unfold {R} (k : str → str → option R) (g s : str) :
  re_dot_star_lazy k g s =
    match k g s with
    | Some r => Some r
    | None => match s with
              | [] => None
              | c :: s' => re_dot_star_lazy k (g ++ [c]) s'
              end
    end.
Proof. by destruct s. Qed.

Lemma lstrip_space_occurs (s m : str) :
  m `prefix_of` lstrip_space s →
  ∃ w, spaces w ∧ w `prefix_of` s ∧ occurs_at s m (length w).
Proof.
  intros Hm. destruct (lstrip_space_split s) as (w & Hw & Hsp & _).
  exists w. split; [done|]. split; [by eexists|].
  assert (length s = length w + length (lstrip_space s)) as Hl
    by (rewrite Hw at 1; apply length_app).
  assert (drop (length w) s = lstrip_space s) as Hd
    by (rewrite Hw at 1; apply drop_app_length).
  split; [lia | by rewrite Hd].
Qed.

Lemma lazy_found (a g w rest : str) :
  ends_nonspace a → spaces w →
  (∀ j, j < length a → ¬ occurs_at (a ++ w ++ tool_call_end_token ++ rest) tool_call_end_token j) →
  re_dot_star_lazy re_tail g (a ++ w ++ tool_call_end_token ++ rest) = Some (g ++ a, rest).
Proof.
  intros Ha Hw. revert g Ha. induction a as [|c a IH]; intros g Ha Hmin.
  - rewrite app_nil_l, app_nil_r, re_dot_star_lazy_unfold, re_tail_eq.
    rewrite lstrip_space_spaces by done.
    rewrite lstrip_space_nonspace by (by intros ?? [= <- _]).
    by rewrite startswith_app, drop_app_length.
  - rewrite re_dot_star_lazy_unfold, re_tail_eq.
    destruct (startswith _ _) eqn:E.
    + exfalso. apply startswith_prefix, lstrip_space_occurs in E as (w' & Hsp & [r Hr] & Hocc).
      apply (Hmin (length w')); [|done].
      destruct (decide (length w' < length (c :: a))); [done|]. exfalso.
      apply (ends_nonspace_not_spaces (c :: a)); [done..|].
      apply (f_equal (take (length (c :: a)))) in Hr.
      rewrite take_app_length, take_app_le in Hr by lia.
      rewrite Hr. by apply Forall_take.
    + simpl. rewrite IH.
      * by rewrite <- app_assoc.
      * by eapply ends_nonspace_tail.
      * intros j Hj Hocc. apply (Hmin (S j)); [simpl; lia|]. by apply occurs_at_S.
Qed.

Lemma lazy_spec (g s : str) :
  re_dot_star_lazy re_tail g s =
    match find s tool_call_end_token with
    | Some q => Some (g ++ rstrip_space (take q s), drop (q + length tool_call_end_token) s)
    | None => None
    end.
Proof.
  destruct (find s tool_call_end_token) as [q|] eqn:E.
  - apply find_Some in E as [Hocc Hmin].
    pose proof Hocc as (r & Hr & Hq)%occurs_at_split.
    destruct (rstrip_space_split (take q s)) as (w & Hw & Hsp & Hns).
    rewrite Hr at 1. rewrite Hw at 1. rewrite <- app_assoc.
    rewrite lazy_found; [| done | done |].
    + do 2 f_equal. rewrite Hr at 1.
      rewrite <- drop_drop, drop_app_length', drop_app_length; [done|].
      rewrite length_take. lia.
    + intros j Hj. rewrite app_assoc, <- Hw, <- Hr. apply Hmin.
      apply (f_equal length) in Hw. rewrite length_app, length_take in Hw. lia.
  - revert g. induction s as [|c s IH]; intros g.
    + by rewrite re_dot_star_lazy_unfold, re_tail_eq.
    + rewrite re_dot_star_lazy_unfold, re_tail_eq.
      destruct (startswith _ _) eqn:E'.
      * exfalso. apply startswith_prefix, lstrip_space_occurs in E' as (w' & _ & _ & Hocc).
        rewrite find_None in E. by apply (E (length w')).
      * apply find_cons_None in E. by apply IH.
Qed.

(** One attempt of the pattern, in terms of [find]. *)
Lemma tool_call_regex_spec (s : str) :
  tool_call_regex s =
    if startswith s tool_call_start_token then
      let body := drop (length tool_call_start_token) s in
      match find body tool_call_end_token with
      | Some q => Some (strip_space (take q body),
                        drop (q + length tool_call_end_token) body)
      | None => None
      end
    else None.
Proof.
  unfold tool_call_regex, re_lit. destruct (startswith s _); [|done].
  fold re_tail. cbv zeta. generalize (drop (length tool_call_start_token) s) as body.
  intros body. rewrite re_space_star_skip.
  - rewrite lazy_spec.
    destruct (lstrip_space_split body) as (w & Hw & Hsp & Hns).
    assert (find body tool_call_end_token
            = (λ q, length w + q) <$> find (lstrip_space body) tool_call_end_token) as ->
      by (rewrite Hw at 1; apply find_marker_spaces; [apply marker_end | done]).
    destruct (find (lstrip_space body) _) as [q|]; [|done].
    cbn [fmap option_fmap option_map app].
    assert (take (length w + q) body = w ++ take q (lstrip_space body)) as ->
      by (rewrite Hw at 1; by apply take_app_add').
    assert (drop (length w + q + length tool_call_end_token) body
            = drop (q + length tool_call_end_token) (lstrip_space body)) as ->
      by (rewrite Hw at 1; rewrite <- Nat.add_assoc; by apply drop_app_add').
    unfold strip_space. rewrite lstrip_space_spaces by done.
    by rewrite (lstrip_space_nonspace (take _ _)) by by apply starts_nonspace_take.
  - intros c t Hc. rewrite !lazy_spec.
    destruct (find t _) eqn:E; [done|]. intros _.
    by rewrite find_cons, (startswith_marker_space _ _ _ marker_end Hc), E.
Qed.

Lemma startswith_marker_other m c (s : str) :
  marker m → c ≠ "<"%char → startswith (c :: s) m = false.
Proof.
  intros (t & -> & _) Hc. cbn [startswith].
  by destruct (Ascii.eqb_spec "<"%char c) as [<-|].
Qed.

Lemma find_marker_skip m (t x : str) :
  marker m → "<"%char ∉ t → find (t ++ x) m = (λ q, length t + q) <$> find x m.
Proof.
  intros Hm. induction t as [|c t IH]; intros Ht.
  - simpl. by destruct (find x m).
  - apply not_elem_of_cons in Ht as [Hc Ht].
    change ((c :: t) ++ x) with (c :: (t ++ x)).
    rewrite find_cons, startswith_marker_other, IH by done. by destruct (find x m).
Qed.

(** ** [findall] *)

Lemma tool_call_regex_rest (s json rest : str) :
  tool_call_regex s = Some (json, rest) → length rest < length s.
Proof.
  rewrite tool_call_regex_spec. destruct (startswith s _) eqn:E; [|done].
  apply startswith_prefix in E as [r ->]. cbv zeta.
  destruct (find _ _) as [q|]; [|done]. intros [= _ <-].
  rewrite !length_drop, length_app.
  assert (0 < length tool_call_start_token) by (vm_compute; lia). lia.
Qed.

Lemma findall_fuel_enough n m (s : str) :
  length s < n → length s < m → findall_fuel n s = findall_fuel m s.
Proof.
  revert m s. induction n as [|n IH]; intros m s Hn Hm; [lia|].
  destruct m as [|m]; [lia|]. simpl.
  destruct (tool_call_regex s) as [[json rest]|] eqn:E.
  - apply tool_call_regex_rest in E. f_equal. apply IH; lia.
  - destruct s as [|c s]; [done|]. simpl in Hn, Hm. apply IH; lia.
Qed.

Lemma findall_step (s : str) :
  findall s =
    match tool_call_regex s with
    | Some (json, rest) => json :: findall rest
    | None => match s with
              | [] => []
              | _ :: s' => findall s'
              end
    end.
Proof.
  unfold findall at 1. cbn [findall_fuel].
  destruct (tool_call_regex s) as [[json rest]|] eqn:E.
  - apply tool_call_regex_rest in E. f_equal. apply findall_fuel_enough; lia.
  - destruct s as [|c s]; [done|]. apply findall_fuel_enough; simpl; lia.
Qed.

Lemma findall_no_end (s : str) : find s tool_call_end_token = None → findall s = [].
Proof.
  induction s as [|c s IH]; intros H; [done|].
  rewrite findall_step, tool_call_regex_spec.
  destruct (startswith (c :: s) _).
  - cbv zeta. rewrite find_drop_None; [|done..]. apply IH. by eapply find_cons_None.
  - apply IH. by eapply find_cons_None.
Qed.

(** [findall] in terms of [find]: the first start marker, the first end
    marker after it, the text between them without the whitespace
    around it, and the same again on what follows the end marker. *)
Lemma findall_unfold (s : str) :
  findall s =
    match find s tool_call_start_token with
    | None => []
    | Some p =>
        let body := drop (p + length tool_call_start_token) s in
        match find body tool_call_end_token with
        | None => []
        | Some q =>
            strip_space (take q body)
            :: findall (drop (q + length tool_call_end_token) body)
        end
    end.
Proof.
  induction s as [|c s IH]; [done|].
  rewrite findall_step, tool_call_regex_spec, find_cons.
  destruct (startswith (c :: s) _) eqn:E.
  - cbv zeta. rewrite Nat.add_0_l. destruct (find (drop _ _) _) eqn:E'; [done|].
    apply findall_no_end.
    apply startswith_prefix in E as [r Hr].
    rewrite Hr, drop_app_length in E'.
    assert (s = drop 1 tool_call_start_token ++ r) as ->
      by (by apply (f_equal (drop 1)) in Hr).
    rewrite find_marker_skip, E'; [done | apply marker_end |]. simpl.
    rewrite !not_elem_of_cons. repeat split; try done. apply not_elem_of_nil.
  - rewrite IH. destruct (find s tool_call_start_token) as [p|]; [|done]. done.
Qed.

Lemma findall_no_start (s : str) : find s tool_call_start_token = None → findall s = [].
Proof. intros H. by rewrite findall_unfold, H. Qed.

(** ** [findall] on a concatenation *)

Lemma findall_skip (a b : str) :
  (∀ i, occurs_at (a ++ b) tool_call_start_token i → length a ≤ i) →
  findall (a ++ b) = findall b.
Proof.
  intros Hskip. rewrite (findall_unfold (a ++ b)), (findall_unfold b), find_app_skip by done.
  destruct (find b _) as [p|]; [|done]. simpl.
  by rewrite <- Nat.add_assoc, drop_app_add'.
Qed.

Lemma find_end_after_start (r : str) :
  find (tool_call_start_token ++ r) tool_call_end_token
  = (λ q, length tool_call_start_token + q) <$> find r tool_call_end_token.
Proof.
  change (tool_call_start_token ++ r)
    with ("<"%char :: (drop 1 tool_call_start_token ++ r)).
  rewrite find_cons.
  replace (startswith _ tool_call_end_token) with false by done.
  rewrite find_marker_skip; [by destruct (find r _) | apply marker_end |].
  simpl. rewrite !not_elem_of_cons. repeat split; try done. apply not_elem_of_nil.
Qed.

(** The first start marker and the first end marker after it. *)
Lemma closed_block (a : str) s e :
  find a tool_call_start_token = Some s →
  find_from a tool_call_end_token s = Some e →
  ∃ q, e = s + length tool_call_start_token + q
       ∧ find (drop (s + length tool_call_start_token) a) tool_call_end_token = Some q.
Proof.
  intros Hs He. unfold find_from in He. apply fmap_Some in He as (q0 & Hq0 & ->).
  apply find_Some in Hs as [[Hs [r Hr]] _]. rewrite Hr, find_end_after_start in Hq0.
  apply fmap_Some in Hq0 as (q & Hq & ->). exists q. split; [lia|].
  by rewrite <- drop_drop, Hr, drop_app_length.
Qed.

Lemma findall_closed (a y : str) s e :
  find a tool_call_start_token = Some s →
  find_from a tool_call_end_token s = Some e →
  findall (take (e + length tool_call_end_token) a ++ y)
  = strip_space (take (e - (s + length tool_call_start_token))
                   (drop (s + length tool_call_start_token) a))
    :: findall y.
Proof.
  intros Hs He. destruct (closed_block a s e Hs He) as (q & -> & Hq).
  rewrite findall_unfold.
  set (n := s + length tool_call_start_token + q + length tool_call_end_token).
  assert (q + length tool_call_end_token
          ≤ length (drop (s + length tool_call_start_token) a)) as Hlen.
  { by apply find_Some in Hq as [Hq%occurs_at_length _]. }
  rewrite length_drop in Hlen.
  assert (0 < length tool_call_end_token) as Hpos by (simpl; lia).
  rewrite (find_app_l _ _ _ s); [|apply find_take; [done | unfold n; lia]].
  cbv zeta. rewrite drop_app_le by (rewrite length_take; unfold n; lia).
  rewrite skipn_firstn_comm.
  replace (n - (s + length tool_call_start_token)) with (q + length tool_call_end_token)
    by (unfold n; lia).
  rewrite (find_app_l _ _ _ q); [|apply find_take; [done | lia]].
  f_equal.
  - rewrite take_app_le by (rewrite length_take, length_drop; lia).
    rewrite take_take. f_equal. f_equal; lia.
  - rewrite drop_app_length'; [done|]. rewrite length_take, length_drop. lia.
Qed.

Lemma findall_block (b : block) (rest : str) :
  block_shape b → find (payload b) tool_call_end_token = None →
  findall (block_text b ++ rest) = payload b :: findall rest.
Proof.
  intros (Hsep & Hlead & Htrail & [Hs He]%strip_space_fixed) Hno.
  set (inner := lead b ++ payload b ++ trail b).
  set (body := inner ++ tool_call_end_token ++ rest).
  assert (block_text b ++ rest = sep b ++ tool_call_start_token ++ body) as ->
    by (unfold block_text, body, inner; by rewrite <- !app_assoc).
  assert (find (sep b ++ tool_call_start_token ++ body) tool_call_start_token
          = Some (length (sep b) + 0)) as H1
    by (rewrite find_marker_spaces, find_head by (apply marker_start || done); done).
  assert (drop (length (sep b) + 0 + length tool_call_start_token)
            (sep b ++ tool_call_start_token ++ body) = body) as H2
    by (by rewrite Nat.add_0_r, drop_app_add', drop_app_length).
  assert (find body tool_call_end_token = Some (length inner)) as H3.
  { unfold body, inner. rewrite <- !app_assoc.
    rewrite find_marker_spaces by (apply marker_end || done).
    rewrite find_marker_after by (apply marker_end || done).
    cbn [fmap option_fmap option_map]. f_equal. rewrite !length_app. lia. }
  rewrite findall_unfold, H1. cbv zeta. rewrite H2, H3. unfold body.
  rewrite take_app_length, drop_app_add', drop_app_length by done.
  unfold inner. by rewrite strip_space_payload.
Qed.

(** * One-shot extraction *)

Lemma contains_start_find (s : str) :
  contains s tool_calls_start_token = true → ∃ p, find s tool_call_start_token = Some p.
Proof. unfold contains, tool_calls_start_token. destruct (find s _); [by eexists | done]. Qed.

Lemma find_nonempty (s sub : str) p : sub ≠ [] → find s sub = Some p → s ≠ [].
Proof.
  intros Hsub [Hocc%occurs_at_length _]%find_Some ->. simpl in Hocc.
  destruct sub; [done|]. simpl in Hocc. lia.
Qed.

Lemma nonempty_not_empty (s : str) : nonempty s ≠ Some [].
Proof. by destruct s. Qed.

Lemma dict_get_lookup d key default :
  dict_get d key default = match dict_lookup d key with Some v => v | None => default end.
Proof. induction d as [|[k v] d IH]; [done|]. simpl. by destruct (bool_decide _). Qed.

(** ** Trailing newlines *)

Lemma rstrip_newline_split (s : str) :
  ∃ k, s = rstrip_newline s ++ replicate k newline.
Proof.
  induction s as [|c s [k IH]]; [by exists 0|].
  cbn [rstrip_newline]. destruct (rstrip_newline s) as [|x r] eqn:Hr.
  - simpl in IH. destruct (Ascii.eqb_spec c newline) as [->|Hc].
    + exists (S k). simpl. by rewrite <- IH.
    + exists k. simpl. by rewrite <- IH.
  - exists k. rewrite IH at 1. done.
Qed.

Lemma rstrip_newline_last (s : str) : last (rstrip_newline s) ≠ Some newline.
Proof.
  induction s as [|c s IH]; [done|].
  cbn [rstrip_newline]. destruct (rstrip_newline s) as [|x r] eqn:Hr.
  - destruct (Ascii.eqb_spec c newline) as [->|Hc]; [done|]. simpl. congruence.
  - done.
Qed.

(** A text has one way only of being a text that does not end in a
    newline followed by newlines. *)
Lemma trim_unique (c c' : str) (k k' : nat) :
  c ++ replicate k newline = c' ++ replicate k' newline →
  last c ≠ Some newline → last c' ≠ Some newline → c = c'.
Proof.
  revert k'. induction k as [|k IH]; intros [|k'] H Hc Hc'.
  - by rewrite !app_nil_r in H.
  - rewrite app_nil_r in H. subst c. rewrite replicate_S_end, (assoc_L (++)) in Hc.
    by rewrite last_snoc in Hc.
  - rewrite app_nil_r in H. subst c'. rewrite replicate_S_end, (assoc_L (++)) in Hc'.
    by rewrite last_snoc in Hc'.
  - rewrite !replicate_S_end, !(assoc_L (++)) in H.
    apply app_inj_tail in H as [H _]. by apply (IH k').
Qed.

Lemma extracted_eq (r : ExtractedToolCallInformation) called calls text :
  tools_called r = called → tool_calls r = calls → content r = text →
  r = {| tools_called := called; tool_calls := calls; content := text |}.
Proof. destruct r. simpl. by intros -> -> ->. Qed.

Section OneShot.
Context (json_loads : str → option value) (FunctionCall_name : value → option str).

#[local] Abbreviation build := (tool_call_of_json json_loads FunctionCall_name).
#[local] Abbreviation extract := (extract_tool_calls json_loads FunctionCall_name).

Lemma tool_call_of_json_loads_None (j : str) :
  json_loads j = None → build j = None.
Proof. intros H. unfold tool_call_of_json. by rewrite H. Qed.

Lemma extract_no_start (s : str) :
  contains (_strip_think_tags s) tool_calls_start_token = false →
  extract s
  = {| tools_called := false; tool_calls := []; content := Some (_strip_think_tags s) |}.
Proof. intros H. unfold extract_tool_calls. cbv zeta. by rewrite H. Qed.

Lemma extract_start (s : str) p :
  find (_strip_think_tags s) tool_call_start_token = Some p →
  extract s =
    match mapM build (findall (_strip_think_tags s)) with
    | Some calls =>
        {| tools_called := true; tool_calls := calls;
           content := nonempty (rstrip_newline (take p (_strip_think_tags s))) |}
    | None =>
        {| tools_called := false; tool_calls := [];
           content := Some (_strip_think_tags s) |}
    end.
Proof.
  intros H. unfold extract_tool_calls, contains, tool_calls_start_token.
  cbv zeta. by rewrite H.
Qed.

(** C5.  When the stripped text holds a start marker and the inner text
    of one of the located spans fails to parse as JSON, or building its
    record raises any other exception, the result is the fallback: not
    called, no calls, and the whole stripped text as content. *)
Theorem extract_tool_calls_degrades (model_output : str) :
  contains (_strip_think_tags model_output) tool_calls_start_token = true →
  (∃ j, j ∈ findall (_strip_think_tags model_output)
        ∧ (json_loads j = None ∨ build j = None)) →
  extract model_output
  = {| tools_called := false; tool_calls := [];
       content := Some (_strip_think_tags model_output) |}.
Proof.
  intros [p Hp]%contains_start_find (j & Hj & Hfail).
  rewrite (extract_start _ p Hp).
  assert (mapM build (findall (_strip_think_tags model_output)) = None) as ->; [|done].
  apply mapM_None, Exists_exists. exists j. split; [done|].
  destruct Hfail as [H|H]; [by apply tool_call_of_json_loads_None | done].
Qed.

(** C8 (amended).  When the stripped text holds a start marker the
    content of the result is [None] or a non-empty string.  When it
    holds none the content is the stripped text itself, unchanged; so
    the content is the empty string exactly when the stripped text is
    empty. *)
Theorem extract_tool_calls_content (model_output : str) :
  (contains (_strip_think_tags model_output) tool_calls_start_token = true
   → content (extract model_output) ≠ Some [])
  ∧ (contains (_strip_think_tags model_output) tool_calls_start_token = false
     → content (extract model_output) = Some (_strip_think_tags model_output))
  ∧ (content (extract model_output) = Some []
     ↔ _strip_think_tags model_output = []).
Proof.
  assert (contains (_strip_think_tags model_output) tool_calls_start_token = true
          → content (extract model_output) ≠ Some []) as Hstart.
  { intros [p Hp]%contains_start_find. rewrite (extract_start _ p Hp).
    destruct (mapM _ _); simpl; [apply nonempty_not_empty|].
    intros [= H]. by apply find_nonempty in Hp. }
  split; [done|]. split; [intros E; by rewrite (extract_no_start _ E)|]. split.
  - destruct (contains (_strip_think_tags model_output) tool_calls_start_token) eqn:E.
    + intros H. by apply Hstart in H.
    + rewrite (extract_no_start _ E). by intros [= ->].
  - intros H. rewrite extract_no_start; rewrite H; done.
Qed.

(** C10.  When the stripped text holds a start marker and no end marker
    stands at or after the end of a start marker (no complete span),
    the result is called and has no calls.  Its content is the text
    before the first start marker without the newlines at its end:
    that text is the content followed by newlines only, the content
    does not end in a newline, and the content is [None] when nothing
    is left.  The text from the start marker on is not in the
    result. *)
Theorem extract_tool_calls_unclosed (model_output : str) (p : nat) :
  find (_strip_think_tags model_output) tool_call_start_token = Some p →
  (∀ i j, occurs_at (_strip_think_tags model_output) tool_call_start_token i →
          occurs_at (_strip_think_tags model_output) tool_call_end_token j →
          j < i + length tool_call_start_token) →
  tools_called (extract model_output) = true
  ∧ tool_calls (extract model_output) = []
  ∧ ∃ c k,
      take p (_strip_think_tags model_output) = c ++ replicate k newline
      ∧ last c ≠ Some newline
      ∧ (c = [] → content (extract model_output) = None)
      ∧ (c ≠ [] → content (extract model_output) = Some c).
Proof.
  intros Hp Hno. rewrite (extract_start _ p Hp), findall_unfold, Hp. cbv zeta.
  destruct (find (drop _ _) _) as [q|] eqn:E.
  { exfalso. apply find_Some in E as [Hocc%occurs_at_drop _]; [|done].
    apply find_Some in Hp as [Hp _]. specialize (Hno _ _ Hp Hocc). lia. }
  cbn [mapM tools_called tool_calls content]. split; [done|]. split; [done|].
  destruct (rstrip_newline_split (take p (_strip_think_tags model_output))) as [k Hk].
  exists (rstrip_newline (take p (_strip_think_tags model_output))), k.
  split; [done|]. split; [apply rstrip_newline_last|].
  split; [by intros ->|]. by destruct (rstrip_newline _).
Qed.

(** The record the loop body builds from a payload that parses as a
    JSON object. *)
Lemma tool_call_of_json_dict (j : str) d :
  json_loads j = Some (JDict d) →
  build j =
    name ← FunctionCall_name
             (match dict_lookup d (txt "name") with Some v => v | None => JStr [] end);
    Some {| type := txt "function";
            function :=
              {| name := name;
                 arguments :=
                   match dict_lookup d (txt "arguments") with
                   | Some a => json_dumps a
                   | None => txt "{}"
                   end |} |}.
Proof.
  intros H. unfold tool_call_of_json. rewrite H. cbn [mbind option_bind].
  rewrite !dict_get_lookup. by destruct (dict_lookup d (txt "arguments")).
Qed.

(** C2 (amended).  Take a text made of one or more well-formed blocks,
    with whitespace before each block and after the last one, without
    narration delimiter; let each payload be the text of a JSON object
    with a string name and an arguments value, and let no payload hold
    the text of the end marker.  Then the extraction is called and
    returns one call for each block, in the order of the blocks, with
    the name of the block's object and the [json.dumps] text of its
    arguments value. *)
Theorem extract_tool_calls_blocks (blocks : list (block * str * value)) (tail : str) :
  let text := concat ((λ x, block_text x.1.1) <$> blocks) ++ tail in
  blocks ≠ [] →
  Forall (λ x, well_formed json_loads x.1.1 x.1.2 x.2
               ∧ find (payload x.1.1) tool_call_end_token = None) blocks →
  spaces tail →
  no_think text →
  (∀ n, FunctionCall_name (JStr n) = Some n) →
  tools_called (extract text) = true
  ∧ tool_calls (extract text)
    = (λ x, {| type := txt "function";
               function := {| name := x.1.2; arguments := json_dumps x.2 |} |})
      <$> blocks.
Proof.
  intros text Hne Hwf Htail Hnt Hname.
  assert (findall text = (λ x, payload x.1.1) <$> blocks) as Hfind.
  { unfold text. clear -Hwf Htail.
    induction Hwf as [|[[b n] a] bs [[Hshape _] Hno] _ IH].
    - simpl. apply findall_no_start.
      rewrite <- (app_nil_r tail), find_marker_spaces by (apply marker_start || done). done.
    - cbn [fmap list_fmap concat fst]. rewrite <- app_assoc, findall_block by done.
      by rewrite IH. }
  assert (mapM build (findall text)
          = Some ((λ x, {| type := txt "function";
                           function := {| name := x.1.2; arguments := json_dumps x.2 |} |})
                  <$> blocks)) as Hcalls.
  { rewrite Hfind. clear -Hwf Hname. induction Hwf as [|[[b n] a] bs [Hb _] _ IH]; [done|].
    destruct Hb as (_ & d & Hd & Hn & Ha).
    cbn [fmap list_fmap mapM fst snd] in *. rewrite IH.
    rewrite (tool_call_of_json_dict _ d Hd), Hn, Ha, Hname. done. }
  assert (∃ p, find text tool_call_start_token = Some p) as [p Hp].
  { destruct blocks as [|[[b n] a] bs]; [done|].
    unfold text. cbn [fmap list_fmap concat fst]. unfold block_text at 1.
    rewrite <- !app_assoc.
    apply (find_is_Some _ _ (length (sep b))).
    rewrite <- (Nat.add_0_r (length (sep b))). apply occurs_at_app_r.
    apply occurs_at_0. by apply prefix_app_r. }
  pose proof (extract_start text p) as Hex.
  rewrite (strip_no_think text Hnt) in Hex. rewrite (Hex Hp), Hcalls. done.
Qed.

(** C7 (amended).  For a record built from a payload that parses as a
    JSON object (the constructor keeping a string name as it is): the
    name is the empty string when the payload has no name field and the
    field's string when it has one; the arguments text is [{}] when the
    payload has no arguments field and [json.dumps] of the field's value
    when it has one, printed in the key order of the payload.  Two
    payloads whose parsed arguments are the same value get the same
    arguments text, however the payloads are laid out. *)
Theorem tool_call_record (j : str) (d : list (str * value)) (tc : ToolCall) :
  json_loads j = Some (JDict d) →
  (∀ s, FunctionCall_name (JStr s) = Some s) →
  build j = Some tc →
  (dict_lookup d (txt "name") = None → name (function tc) = [])
  ∧ (∀ n, dict_lookup d (txt "name") = Some (JStr n) → name (function tc) = n)
  ∧ (dict_lookup d (txt "arguments") = None → arguments (function tc) = txt "{}")
  ∧ (∀ a, dict_lookup d (txt "arguments") = Some a →
          arguments (function tc) = json_dumps a)
  ∧ (∀ j' d' tc',
       json_loads j' = Some (JDict d') → build j' = Some tc' →
       dict_lookup d' (txt "arguments") = dict_lookup d (txt "arguments") →
       arguments (function tc') = arguments (function tc)).
Proof.
  intros Hd Hname Htc. rewrite (tool_call_of_json_dict _ d Hd) in Htc.
  assert (∀ j' d' tc',
            json_loads j' = Some (JDict d') → build j' = Some tc' →
            dict_lookup d' (txt "arguments") = dict_lookup d (txt "arguments") →
            arguments (function tc') = arguments (function tc)) as Hsame.
  { intros j' d' tc' Hd' Htc' Heq.
    rewrite (tool_call_of_json_dict _ d' Hd'), Heq in Htc'.
    apply bind_Some in Htc as (n & _ & [= <-]).
    by apply bind_Some in Htc' as (n' & _ & [= <-]). }
  destruct (dict_lookup d (txt "name")) as [v|] eqn:En;
    destruct (dict_lookup d (txt "arguments")) as [a|] eqn:Ea;
    apply bind_Some in Htc as (n & Hn & [= <-]); cbn [function name arguments];
    repeat split;
    first [ exact Hsame
          | done
          | intros; simplify_eq; rewrite ?Hname in *; by simplify_eq ].
Qed.

End OneShot.

(** * Streaming *)

Lemma emitted_cons r rs :
  emitted (r :: rs) = match r with Some m => delta_tool_calls m | None => [] end ++ emitted rs.
Proof. done. Qed.

Lemma next_index_nonneg self : (-1 ≤ current_tool_id self)%Z → (0 ≤ next_index self)%Z.
Proof. unfold next_index. intros H. zeqb; lia. Qed.

Lemma length_grow {A} (l : list A) (i : Z) (x : A) :
  (i < Z.of_nat (length (grow l i x)))%Z.
Proof. unfold grow. rewrite length_app, length_replicate. lia. Qed.

Lemma setitem_is_Some {A} (l : list A) (i : Z) (x : A) :
  (0 ≤ i < Z.of_nat (length l))%Z → ∃ l', setitem l i x = Some l' ∧ length l' = length l.
Proof.
  intros Hi. unfold setitem. rewrite bool_decide_eq_true_2 by done.
  eexists. split; [done|]. apply length_insert.
Qed.

Lemma prepare_buffer self : _buffer (prepare self) = _buffer self.
Proof. unfold prepare. cbv zeta. by destruct (_ =? _)%Z. Qed.

Lemma prepare_id self : current_tool_id (prepare self) = next_index self.
Proof. unfold prepare, next_index. cbv zeta. by destruct (_ =? _)%Z. Qed.

Lemma prepare_fresh self :
  current_tool_id self = (-1)%Z →
  prev_tool_call_arr (prepare self) = [JDict []]
  ∧ streamed_args_for_tool (prepare self) = [[]].
Proof. intros H. unfold prepare. cbv zeta. by rewrite H. Qed.

Lemma prepare_lengths self :
  (current_tool_id (prepare self) < Z.of_nat (length (prev_tool_call_arr (prepare self))))%Z
  ∧ (current_tool_id (prepare self)
     < Z.of_nat (length (streamed_args_for_tool (prepare self))))%Z.
Proof.
  unfold prepare. cbv zeta.
  destruct (_ =? _)%Z; split;
    cbn [current_tool_id prev_tool_call_arr streamed_args_for_tool
         set_prev_tool_call_arr set_streamed_args_for_tool set_current_tool_id];
    apply length_grow.
Qed.

Section Streaming.
Context (json_loads : str → option value) (FunctionCall_name : value → option str).

#[local] Abbreviation build := (tool_call_of_json json_loads FunctionCall_name).
#[local] Abbreviation extract := (extract_tool_calls json_loads FunctionCall_name).
#[local] Abbreviation step := (extract_tool_calls_streaming json_loads FunctionCall_name).
#[local] Abbreviation run := (session json_loads FunctionCall_name).

Lemma step_no_start (self : TrinityToolParser) (delta_text : str) :
  find (_buffer self ++ _strip_think_tags delta_text) tool_call_start_token = None →
  step self delta_text
  = Returned (set_buffer self [])
      (Some {| delta_content :=
                 nonempty (if (0 <? current_tool_id self)%Z then []
                           else _buffer self ++ _strip_think_tags delta_text);
               delta_tool_calls := [] |}).
Proof. intros H. unfold extract_tool_calls_streaming. cbv zeta. simpl _buffer. by rewrite H. Qed.

(** What a call does to the call index. *)
Lemma step_index (self : TrinityToolParser) (delta_text : str) :
  (-1 ≤ current_tool_id self)%Z →
  match step self delta_text with
  | Raised self' => next_index self' = next_index self ∧ (-1 ≤ current_tool_id self')%Z
  | Returned self' r =>
      (-1 ≤ current_tool_id self')%Z
      ∧ ((emitted [r] = [] ∧ next_index self' = next_index self
          ∧ (0 < current_tool_id self → current_tool_id self' = current_tool_id self)%Z)
         ∨ (∃ tc, emitted [r] = [tc] ∧ index tc = next_index self
                  ∧ current_tool_id self' = (next_index self + 1)%Z))
  end.
Proof.
  intros Hid. unfold extract_tool_calls_streaming, next_index. cbv zeta.
  destruct (find _ tool_call_start_token) as [start_idx|]; [|simpl; auto 10].
  destruct (find_from _ _ _) as [end_idx|]; [|simpl; auto 10].
  assert (∀ (self0 : TrinityToolParser),
    (-1 ≤ current_tool_id self0)%Z →
    let self1 := if (current_tool_id self0 =? -1)%Z
                 then set_streamed_args_for_tool
                        (set_prev_tool_call_arr (set_current_tool_id self0 0) []) []
                 else self0 in
    current_tool_id self1 = (if (current_tool_id self0 =? -1)%Z then 0 else current_tool_id self0)%Z
    ∧ (0 ≤ current_tool_id self1)%Z) as Hprep.
  { intros self0 H0. cbv zeta. destruct (Z.eqb_spec (current_tool_id self0) (-1)); simpl; lia. }
  specialize (Hprep (set_buffer self (_buffer self ++ _strip_think_tags delta_text)) Hid).
  cbv zeta in Hprep. simpl _buffer in *.
  set (self1 := if (current_tool_id (set_buffer self _) =? -1)%Z then _ else _) in *.
  change (current_tool_id (set_buffer self (_buffer self ++ _strip_think_tags delta_text)))
    with (current_tool_id self) in Hprep.
  destruct Hprep as [Hid1 Hge].
  assert ((if (current_tool_id self1 =? -1)%Z then 0%Z else current_tool_id self1)
          = current_tool_id self1) as Hfix
    by (destruct (Z.eqb_spec (current_tool_id self1) (-1)); lia).
  destruct (tool_calls _) as [|tool_call ?].
  { simpl. rewrite Hfix, Hid1. split; [lia|]. left. repeat split; try done.
    intros Hpos. destruct (Z.eqb_spec (current_tool_id self) (-1)); lia. }
  destruct (json_loads _); [|simpl; rewrite Hfix, Hid1; split; [done | lia]].
  destruct (setitem _ _ _); [|simpl; rewrite Hfix, Hid1; split; [done | lia]].
  destruct (setitem _ _ _); [|simpl; rewrite Hfix, Hid1; split; [done | lia]].
  simpl. split; [lia|]. right. eexists. split; [done|]. simpl. by rewrite Hid1.
Qed.

Lemma session_indices (deltas : list str) (self : TrinityToolParser) :
  (-1 ≤ current_tool_id self)%Z →
  indices (run self deltas).1.1
  = seqZ (next_index self) (Z.of_nat (length (emitted (run self deltas).1.1)))
  ∧ next_index (run self deltas).1.2
    = (next_index self + Z.of_nat (length (emitted (run self deltas).1.1)))%Z
  ∧ (emitted (run self deltas).1.1 ≠ [] → 0 < current_tool_id (run self deltas).1.2)%Z
  ∧ (0 < current_tool_id self → 0 < current_tool_id (run self deltas).1.2)%Z.
Proof.
  revert self. induction deltas as [|d deltas IH]; intros self Hid.
  - simpl. repeat split; [lia | done | done].
  - cbn [session]. pose proof (step_index self d Hid) as Hstep.
    destruct (step self d) as [self' r|self'].
    + destruct Hstep as [Hid' Hstep]. specialize (IH self' Hid').
      destruct (run self' deltas) as [[rs self''] raised].
      cbn [fst snd] in *. destruct IH as (IH1 & IH2 & IH3 & IH4).
      unfold indices in *. rewrite emitted_cons.
      assert (emitted [r] = match r with Some m => delta_tool_calls m | None => [] end) as Hr
        by (unfold emitted; simpl; by rewrite app_nil_r).
      rewrite <- Hr. destruct Hstep as [(He & Hn & Hkeep)|(tc & He & Hi & Hn)]; rewrite He.
      * simpl. rewrite <- Hn. repeat split; [done..|].
        intros Hpos. apply IH4. rewrite Hkeep; done.
      * assert (next_index self' = (next_index self + 1)%Z) as Hn'.
        { unfold next_index at 1. rewrite Hn. unfold next_index. zeqb; lia. }
        assert (0 < current_tool_id self')%Z as Hpos'.
        { rewrite Hn. unfold next_index. zeqb; lia. }
        cbn [app length fmap list_fmap]. rewrite IH1, IH2, Hn', Hi.
        repeat split; [|lia|auto..].
        rewrite (seqZ_cons (next_index self)) by lia. f_equal. f_equal; lia.
    + cbn [fst snd]. destruct Hstep as [Hn Hid']. unfold indices. simpl.
      repeat split; [lia | done |].
      intros Hpos. unfold next_index in Hn. zeqb; lia.
Qed.

(** C3.  In a session on a fresh parser the indices of the emitted
    tool-call fragments are [0, 1, 2, ...] in emission order. *)
Theorem streaming_indices (deltas : list str) :
  indices (run init deltas).1.1
  = seqZ 0 (Z.of_nat (length (emitted (run init deltas).1.1))).
Proof. by apply (session_indices deltas init). Qed.

(** C4.  After a session in which a tool call has been emitted, a call
    whose buffer, once the stripped fragment is appended, holds no
    start marker returns a message without content and without
    tool-call fragment, and leaves the buffer empty. *)
Theorem streaming_suppresses_narration (deltas : list str) (delta_text : str) :
  emitted (run init deltas).1.1 ≠ [] →
  find (_buffer (run init deltas).1.2 ++ _strip_think_tags delta_text)
    tool_call_start_token = None →
  ∃ self',
    step (run init deltas).1.2 delta_text
    = Returned self' (Some {| delta_content := None; delta_tool_calls := [] |})
    ∧ _buffer self' = [].
Proof.
  intros Hem Hfind. exists (set_buffer (run init deltas).1.2 []).
  rewrite (step_no_start _ _ Hfind). split; [|done].
  destruct (session_indices deltas init) as (_ & _ & Hpos & _); [done|].
  apply Hpos, Z.ltb_lt in Hem. by rewrite Hem.
Qed.

Lemma step_closed (self : TrinityToolParser) (delta_text : str) s e :
  let cur_text := _buffer self ++ _strip_think_tags delta_text in
  find cur_text tool_call_start_token = Some s →
  find_from cur_text tool_call_end_token s = Some e →
  step self delta_text =
    let self := prepare (set_buffer self cur_text) in
    let extracted := extract (take (e + length tool_call_end_token) cur_text) in
    match tool_calls extracted with
    | [] => Returned self None
    | tool_call :: _ =>
        match json_loads (arguments (function tool_call)) with
        | None => Raised self
        | Some loaded =>
            match setitem (prev_tool_call_arr self) (current_tool_id self)
                    (JDict [(txt "name", JStr (name (function tool_call)));
                            (txt "arguments", loaded)]) with
            | None => Raised self
            | Some arr =>
                match setitem (streamed_args_for_tool self) (current_tool_id self)
                        (arguments (function tool_call)) with
                | None => Raised (set_prev_tool_call_arr self arr)
                | Some args =>
                    Returned
                      (set_buffer
                         (set_current_tool_id
                            (set_streamed_args_for_tool (set_prev_tool_call_arr self arr) args)
                            (current_tool_id self + 1))
                         (drop (e + length tool_call_end_token) cur_text))
                      (Some {| delta_content := content extracted;
                               delta_tool_calls :=
                                 [ {| index := current_tool_id self;
                                      delta_type := type tool_call;
                                      delta_function :=
                                        {| name := name (function tool_call);
                                           arguments := arguments (function tool_call) |}
                                   |} ] |})
                end
            end
        end
    end.
Proof.
  intros cur_text Hs He. unfold extract_tool_calls_streaming. cbv zeta.
  simpl _buffer. fold cur_text. rewrite Hs, He. reflexivity.
Qed.

Lemma step_open (self : TrinityToolParser) (delta_text : str) s :
  let cur_text := _buffer self ++ _strip_think_tags delta_text in
  find cur_text tool_call_start_token = Some s →
  find_from cur_text tool_call_end_token s = None →
  step self delta_text
  = Returned (set_buffer self (drop s cur_text))
      (Some {| delta_content := nonempty (rstrip_newline (take s cur_text));
               delta_tool_calls := [] |}).
Proof.
  intros cur_text Hs He. unfold extract_tool_calls_streaming. cbv zeta.
  simpl _buffer. fold cur_text. by rewrite Hs, He.
Qed.

(** A buffer that starts with a balanced span yielding no call stays
    that way. *)
Lemma stuck_session (b : str) s e (deltas : list str) (self : TrinityToolParser) :
  find b tool_call_start_token = Some s →
  find_from b tool_call_end_token s = Some e →
  tool_calls (extract (take (e + length tool_call_end_token) b)) = [] →
  b `prefix_of` _buffer self →
  (run self deltas).1.1 = replicate (length deltas) None
  ∧ (run self deltas).2 = false
  ∧ b `prefix_of` _buffer (run self deltas).1.2.
Proof.
  intros Hs He Hzero. revert self. induction deltas as [|d deltas IH]; intros self [x Hx].
  - simpl. repeat split; try done. by exists x.
  - pose proof (find_from_bound b tool_call_end_token s e ltac:(done) He) as [_ Hlen].
    cbn [session]. rewrite (step_closed self d s e); cycle 1.
    { rewrite Hx, <- app_assoc. by apply find_app_l. }
    { rewrite Hx, <- app_assoc. by apply find_from_app_l. }
    cbv zeta. rewrite Hx, <- app_assoc, take_app_le, Hzero by done.
    specialize (IH (prepare (set_buffer self (b ++ x ++ _strip_think_tags d)))).
    destruct IH as (IH1 & IH2 & IH3).
    { rewrite prepare_buffer. simpl. by eexists. }
    destruct (run _ deltas) as [[rs self''] raised]. simpl in *.
    by rewrite IH1.
Qed.

(** C9.  When the buffer, once the stripped fragment is appended,
    holds a balanced span whose extraction yields no call, the call
    returns nothing and so does every later call of the session, with
    the span still at the head of the buffer; the call has by then
    run the first-call initialisation and grown the two per-index
    lists. *)
Theorem streaming_zero_calls_stuck
    (self : TrinityToolParser) (delta_text : str) (start_idx end_idx : nat) :
  let cur_text := _buffer self ++ _strip_think_tags delta_text in
  find cur_text tool_call_start_token = Some start_idx →
  find_from cur_text tool_call_end_token start_idx = Some end_idx →
  tool_calls (extract (take (end_idx + length tool_call_end_token) cur_text)) = [] →
  ∃ self',
    step self delta_text = Returned self' None
    ∧ _buffer self' = cur_text
    ∧ (current_tool_id self = (-1)%Z →
       current_tool_id self' = 0%Z
       ∧ prev_tool_call_arr self' = [JDict []]
       ∧ streamed_args_for_tool self' = [[]])
    ∧ (current_tool_id self' < Z.of_nat (length (prev_tool_call_arr self')))%Z
    ∧ (current_tool_id self' < Z.of_nat (length (streamed_args_for_tool self')))%Z
    ∧ ∀ deltas,
        (run self' deltas).1.1 = replicate (length deltas) None
        ∧ (run self' deltas).2 = false
        ∧ cur_text `prefix_of` _buffer (run self' deltas).1.2.
Proof.
  intros cur_text Hs He Hzero.
  exists (prepare (set_buffer self cur_text)).
  split; [|split; [|split; [|split; [|split]]]].
  - rewrite (step_closed self delta_text start_idx end_idx Hs He). cbv zeta.
    fold cur_text. by rewrite Hzero.
  - by rewrite prepare_buffer.
  - intros Hid. rewrite prepare_id. split.
    + unfold next_index. simpl. by rewrite Hid.
    + by apply prepare_fresh.
  - apply prepare_lengths.
  - apply prepare_lengths.
  - intros deltas. apply (stuck_session cur_text start_idx end_idx); try done.
    by rewrite prepare_buffer.
Qed.

(** The calls of a text without narration delimiters are the records of
    its blocks, when all of them can be built. *)
Lemma extract_calls (s : str) (calls : list ToolCall) :
  no_think s → mapM build (findall s) = Some calls → tool_calls (extract s) = calls.
Proof.
  intros Hs Hcalls. unfold extract_tool_calls. cbv zeta. rewrite (strip_no_think s Hs).
  destruct (contains s tool_calls_start_token) eqn:E; simpl.
  - by rewrite Hcalls.
  - apply contains_false in E. rewrite findall_no_start in Hcalls by done.
    by injection Hcalls as <-.
Qed.

Lemma step_emit (self : TrinityToolParser) (delta_text : str) s e tc :
  let cur_text := _buffer self ++ _strip_think_tags delta_text in
  (-1 ≤ current_tool_id self)%Z →
  find cur_text tool_call_start_token = Some s →
  find_from cur_text tool_call_end_token s = Some e →
  tool_calls (extract (take (e + length tool_call_end_token) cur_text)) = [tc] →
  is_Some (json_loads (arguments (function tc))) →
  ∃ self' m,
    step self delta_text = Returned self' (Some m)
    ∧ delta_function <$> delta_tool_calls m = [function tc]
    ∧ _buffer self' = drop (e + length tool_call_end_token) cur_text
    ∧ (-1 ≤ current_tool_id self')%Z.
Proof.
  intros cur_text Hid Hs He Hcalls [loaded Hloaded].
  rewrite (step_closed self delta_text s e Hs He).
  cbv zeta. fold cur_text. rewrite Hcalls, Hloaded.
  generalize (prepare_lengths (set_buffer self cur_text)).
  generalize (prepare_id (set_buffer self cur_text)).
  generalize (next_index_nonneg (set_buffer self cur_text) Hid).
  generalize (prepare (set_buffer self cur_text)) as self1.
  generalize (next_index (set_buffer self cur_text)) as i.
  intros i self1 Hnn Hpid [Hl1 Hl2].
  destruct (setitem_is_Some (prev_tool_call_arr self1) (current_tool_id self1)
              (JDict [(txt "name", JStr (name (function tc))); (txt "arguments", loaded)]))
    as (arr & -> & _); [lia|].
  destruct (setitem_is_Some (streamed_args_for_tool self1) (current_tool_id self1)
              (arguments (function tc)))
    as (args & -> & _); [lia|].
  eexists _, _. split; [done|]. simpl. repeat split; [|lia].
  by destruct (function tc).
Qed.

Lemma stream_calls (deltas : list str) (self : TrinityToolParser) (calls : list ToolCall) :
  (-1 ≤ current_tool_id self)%Z →
  no_think (_buffer self ++ concat deltas) →
  (∀ k, ¬ straddles (_buffer self ++ concat (take k deltas)) (concat (drop k deltas))
          tool_call_start_token) →
  mapM build (findall (_buffer self ++ concat deltas)) = Some calls →
  Forall (λ tc, is_Some (json_loads (arguments (function tc)))) calls →
  (run self deltas).2 = false
  ∧ no_think (_buffer (run self deltas).1.2)
  ∧ ∃ rest,
      mapM build (findall (_buffer (run self deltas).1.2)) = Some rest
      ∧ (delta_function <$> emitted (run self deltas).1.1) ++ (function <$> rest)
        = function <$> calls.
Proof.
  revert self calls. induction deltas as [|d deltas IH]; intros self calls Hid Hnt Hstr Hcalls Hrt.
  { simpl in *. rewrite app_nil_r in Hcalls, Hnt. split; [done|]. split; [done|]. by exists calls. }
  cbn [concat] in Hnt, Hcalls.
  assert (_strip_think_tags d = d) as Hd
    by (apply strip_no_think; by eapply no_think_sub).
  set (cur := _buffer self ++ d).
  assert (Hstr' : ∀ k, ¬ straddles (cur ++ concat (take k deltas)) (concat (drop k deltas))
                         tool_call_start_token).
  { intros k. specialize (Hstr (S k)). cbn [take drop concat] in Hstr.
    unfold cur. by rewrite <- app_assoc. }
  rewrite app_assoc in Hnt, Hcalls. fold cur in Hnt, Hcalls.
  cbn [session].
  destruct (find cur tool_call_start_token) as [s|] eqn:Hs.
  2: { (* no start marker: the buffer is cleared *)
    rewrite step_no_start by (by rewrite Hd).
    specialize (IH (set_buffer self []) calls Hid).
    destruct IH as (IH1 & IHnt & rest & IH2 & IH3); try done.
    - by apply no_think_suffix in Hnt.
    - intros k Hk. apply (Hstr' k). by apply straddles_app_l.
    - rewrite <- Hcalls. simpl. f_equal. symmetry. apply findall_skip.
      intros i. apply occurs_at_before; [done|].
      specialize (Hstr' 0). simpl in Hstr'. by rewrite app_nil_r in Hstr'.
    - destruct (run _ deltas) as [[rs self''] raised]. simpl in *.
      split; [done|]. split; [done|]. by exists rest. }
  assert (s ≤ length cur) as Hslen.
  { pose proof Hs as [[? _] _]%find_Some. done. }
  destruct (find_from cur tool_call_end_token s) as [e|] eqn:He.
  2: { (* a start marker and no end marker: wait *)
    rewrite (step_open self d s) by (by rewrite Hd).
    rewrite Hd. fold cur.
    specialize (IH (set_buffer self (drop s cur)) calls Hid).
    destruct IH as (IH1 & IHnt & rest & IH2 & IH3); try done.
    - simpl. rewrite <- (take_drop s cur), <- app_assoc in Hnt.
      by apply no_think_suffix in Hnt.
    - intros k Hk. apply (Hstr' k). simpl in Hk.
      rewrite <- (take_drop s cur), <- app_assoc. by apply straddles_app_l.
    - rewrite <- Hcalls. simpl. f_equal. symmetry.
      rewrite <- (take_drop s cur) at 1. rewrite <- app_assoc. apply findall_skip.
      intros i Hi. rewrite length_take, Nat.min_l by done.
      rewrite app_assoc, take_drop in Hi.
      eapply find_le; [|done]. by apply find_app_l.
    - destruct (run _ deltas) as [[rs self''] raised]. simpl in *.
      split; [done|]. split; [done|]. by exists rest. }
  (* a balanced span: one call is emitted *)
  pose proof (find_from_bound cur tool_call_end_token s e ltac:(done) He) as [_ Helen].
  set (n := e + length tool_call_end_token) in *.
  rewrite <- (take_drop n cur), <- app_assoc in Hcalls, Hnt.
  rewrite (findall_closed cur _ s e Hs He) in Hcalls. fold n in Hcalls.
  cbn [mapM] in Hcalls. apply bind_Some in Hcalls as (tc & Htc & Hcalls).
  apply bind_Some in Hcalls as (calls' & Hcalls' & [= <-]).
  apply Forall_cons in Hrt as [Hrt1 Hrt].
  assert (tool_calls (extract (take n cur)) = [tc]) as Hx.
  { apply extract_calls; [by apply no_think_prefix in Hnt|].
    pose proof (findall_closed cur [] s e Hs He) as Hf. fold n in Hf.
    rewrite app_nil_r in Hf. rewrite Hf. cbn [mapM]. by rewrite Htc. }
  destruct (step_emit self d s e tc) as (self' & m & Hstep & Hm & Hbuf & Hid');
    rewrite ?Hd; try done.
  rewrite Hstep. rewrite Hd in Hbuf. fold cur n in Hbuf.
  specialize (IH self' calls' Hid').
  destruct IH as (IH1 & IHnt & rest & IH2 & IH3); try done.
  - rewrite Hbuf. by apply no_think_suffix in Hnt.
  - intros k Hk. apply (Hstr' k). rewrite Hbuf in Hk.
    rewrite <- (take_drop n cur), <- app_assoc. by apply straddles_app_l.
  - by rewrite Hbuf.
  - destruct (run _ deltas) as [[rs self''] raised]. cbn [fst snd] in *.
    split; [done|]. split; [done|]. exists rest. split; [done|].
    rewrite emitted_cons, fmap_app, Hm, <- app_assoc. simpl. by rewrite IH3.
Qed.

Lemma extract_strip_eq (a b : str) :
  _strip_think_tags a = _strip_think_tags b → extract a = extract b.
Proof. intros H. unfold extract_tool_calls. by rewrite H. Qed.



End Streaming.

(** * Further properties of the narration delimiters *)

Lemma replace_sublist (s old : str) : old ≠ [] → replace s old [] `sublist_of` s.
Proof.
  intros Hne. induction s as [s IH] using length_ind.
  rewrite replace_unfold by done.
  destruct (startswith s old) eqn:Hs.
  - apply startswith_prefix in Hs. destruct Hs as [r ->].
    rewrite drop_app_length. simpl. etrans; [apply IH|by apply sublist_inserts_l].
    rewrite length_app. destruct old; [done|simpl; lia].
  - destruct s as [|c s]; [done|]. apply sublist_skip, IH. simpl. lia.
Qed.

(** X1. [_strip_think_tags] only deletes characters: its result is a
    subsequence of the text it is given, with the characters that are
    kept in their original order. *)
Theorem strip_think_tags_sublist (text : str) :
  _strip_think_tags text `sublist_of` text.
Proof.
  unfold _strip_think_tags.
  etrans; [by apply replace_sublist | by apply replace_sublist].
Qed.

Lemma replace_first (x old new : str) i :
  old ≠ [] → find x old = Some i →
  replace x old new = take i x ++ new ++ replace (drop (i + length old) x) old new.
Proof.
  intros Hne. revert i. induction x as [|c x IH]; intros i Hi.
  - destruct old; [done|]. done.
  - rewrite find_cons in Hi. rewrite replace_unfold by done.
    destruct (startswith (c :: x) old) eqn:Hs.
    + by simplify_eq.
    + destruct (find x old) as [i'|] eqn:Hf; [|done]. simpl in Hi. simplify_eq.
      simpl. f_equal. by apply IH.
Qed.

Lemma marker_think_open : marker think_open.
Proof. eexists. split; [done|]. repeat constructor; done. Qed.

Lemma marker_think_close : marker think_close.
Proof. eexists. split; [done|]. repeat constructor; done. Qed.

(** Where a marker can occur in a text with another marker in it. *)
Lemma marker_occurs_glue (m m' x y : str) i :
  marker m → marker m' → occurs_at (x ++ m' ++ y) m i →
  occurs_at x m i
  ∨ (i = length x ∧ m `prefix_of` m' ++ y)
  ∨ (length x + length m' ≤ i ∧ occurs_at y m (i - (length x + length m'))).
Proof.
  intros Hm Hm' Ho.
  destruct (decide (i + length m ≤ length x)) as [Hin|Hout].
  { left. by apply occurs_at_app_inside in Ho. }
  destruct (decide (i < length x)) as [Hlt|Hge].
  { exfalso. destruct Ho as [_ Hp].
    rewrite drop_app_le in Hp by lia.
    apply prefix_app_drop in Hp; [|rewrite length_drop; lia].
    rewrite length_drop in Hp.
    destruct (marker_inner m (length x - i) Hm) as (c & r & Hd & Hc & _); [lia|].
    rewrite Hd in Hp. destruct Hm' as (t' & -> & _).
    destruct Hp as [z Hz]. simpl in Hz. simplify_eq. }
  right. replace i with (length x + (i - length x)) in Ho by lia.
  apply occurs_at_app_r in Ho.
  destruct (decide (i = length x)) as [->|Hne].
  { left. split; [done|]. rewrite Nat.sub_diag in Ho. by apply occurs_at_0 in Ho. }
  right.
  destruct (decide (i - length x < length m')) as [Hin'|Hafter].
  { exfalso. destruct Ho as [_ Hp].
    rewrite drop_app_le in Hp by lia.
    destruct (marker_inner m' (i - length x) Hm') as (c & r & Hd & Hc & _); [lia|].
    rewrite Hd in Hp. destruct Hm as (t & -> & _).
    destruct Hp as [z Hz]. simpl in Hz. simplify_eq. }
  split; [lia|].
  replace (i - length x) with (length m' + (i - (length x + length m'))) in Ho by lia.
  by apply occurs_at_app_r in Ho.
Qed.

Lemma replace_at (a m r new : str) :
  m ≠ [] → find (a ++ m ++ r) m = Some (length a) →
  replace (a ++ m ++ r) m new = a ++ new ++ replace r m new.
Proof.
  intros Hne Hf. rewrite (replace_first _ _ _ (length a)) by done.
  by rewrite take_app_length, (assoc_L (++) a m), <- length_app, drop_app_length.
Qed.

Lemma find_marker_at (m a r : str) :
  marker m → find a m = None → find (a ++ m ++ r) m = Some (length a).
Proof.
  intros Hm Ha.
  pose proof (find_marker_after m a [] r Hm Ha (Forall_nil_2 _)) as H.
  simpl in H. by rewrite Nat.add_0_r in H.
Qed.

Lemma strip_think_section (a b c : str) :
  no_think (a ++ b ++ c) →
  _strip_think_tags (a ++ think_open ++ b ++ think_close ++ c) = a ++ b ++ c.
Proof.
  intros Hn.
  pose proof (no_think_prefix a _ Hn) as [Hao _].
  pose proof (no_think_sub a b c Hn) as [Hbo _].
  pose proof (no_think_suffix a _ Hn) as Hbc.
  apply no_think_suffix in Hbc. destruct Hbc as [Hco Hcc].
  assert (find (a ++ b) think_close = None) as Habc.
  { rewrite (assoc_L (++)) in Hn. by apply no_think_prefix in Hn as [_ ?]. }
  unfold _strip_think_tags.
  rewrite replace_at; [|done|by apply find_marker_at; [apply marker_think_open|]].
  rewrite app_nil_l, (replace_absent (b ++ _)); [|done|].
  - rewrite (assoc_L (++) a b).
    rewrite replace_at; [|done|by apply find_marker_at; [apply marker_think_close|]].
    rewrite app_nil_l, <- (assoc_L (++)). do 2 f_equal. by apply replace_absent.
  - apply find_None. intros j Hj.
    apply marker_occurs_glue in Hj; [|apply marker_think_open|apply marker_think_close].
    destruct Hj as [Hj|[[_ Hj]|[_ Hj]]].
    + by apply find_is_Some in Hj; rewrite Hbo in Hj; destruct Hj.
    + by apply startswith_prefix in Hj.
    + by apply find_is_Some in Hj; rewrite Hco in Hj; destruct Hj.
Qed.

(** * Further properties of the block pattern *)

Lemma strip_space_sub (x : str) :
  ∃ w w', x = w ++ strip_space x ++ w' ∧ spaces w ∧ spaces w'.
Proof.
  destruct (lstrip_space_split x) as (w & Hx & Hw & _).
  destruct (rstrip_space_split (lstrip_space x)) as (w' & Hx' & Hw' & _).
  exists w, w'. unfold strip_space. by rewrite <- Hx', <- Hx.
Qed.

Lemma strip_space_idem (x : str) : strip_space (strip_space x) = strip_space x.
Proof.
  destruct (lstrip_space_split x) as (w & _ & _ & Hs).
  destruct (rstrip_space_split (lstrip_space x)) as (w' & Hx' & _ & He).
  fold (strip_space x) in Hx', He.
  generalize dependent (strip_space x). intros a Hx' He.
  assert (starts_nonspace a) as Hs'.
  { replace a with (take (length a) (lstrip_space x)).
    - by apply starts_nonspace_take.
    - by rewrite Hx', take_app_length. }
  unfold strip_space. rewrite lstrip_space_nonspace by done.
  rewrite <- (app_nil_r a) at 1.
  by apply rstrip_space_nonspace; [|constructor].
Qed.

Lemma find_None_sub (a x b m : str) : find (a ++ x ++ b) m = None → find x m = None.
Proof.
  intros H. apply find_None. intros j Hj.
  eapply find_None in H. apply H.
  apply occurs_at_app_r, occurs_at_app_l, Hj.
Qed.

Lemma find_take_None (s m : str) q : m ≠ [] → find s m = Some q → find (take q s) m = None.
Proof.
  intros Hne Hq. apply find_None. intros j Hj.
  pose proof (occurs_at_length _ _ _ Hj) as Hl. rewrite length_take in Hl.
  apply (occurs_at_app_l _ (drop q s)) in Hj. rewrite take_drop in Hj.
  pose proof (find_le _ _ _ _ Hq Hj). destruct m; [done|]. simpl in Hl. lia.
Qed.

Lemma occurs_at_drop_inv (s m : str) n k :
  n ≤ length s → occurs_at s m (n + k) → occurs_at (drop n s) m k.
Proof.
  intros Hn Ho. rewrite <- (take_drop n s) in Ho.
  replace (n + k) with (length (take n s) + k) in Ho by (rewrite length_take; lia).
  by apply occurs_at_app_r in Ho.
Qed.

(** X2. Every text that the block pattern captures is trimmed (it has no
    whitespace at either end) and does not hold the end marker. *)
Theorem findall_payloads (s : str) :
  Forall (λ j, strip_space j = j ∧ find j tool_call_end_token = None) (findall s).
Proof.
  induction s as [s IH] using length_ind.
  rewrite findall_unfold.
  destruct (find s tool_call_start_token) as [p|] eqn:Hp; [|constructor].
  cbv zeta.
  destruct (find (drop _ s) tool_call_end_token) as [q|] eqn:Hq; [|constructor].
  constructor.
  - split; [apply strip_space_idem|].
    destruct (strip_space_sub (take q (drop (p + length tool_call_start_token) s)))
      as (w & w' & Hw & _).
    apply (find_None_sub w _ w'). rewrite <- Hw. by apply find_take_None.
  - apply IH. rewrite !length_drop.
    apply find_nonempty in Hp; [|done]. destruct s; [done|]. simpl. lia.
Qed.

(** X3. The block pattern finds a match in a text exactly when some start
    marker of the text is followed, after its last character, by an
    end marker. *)
Theorem findall_nonempty_iff (s : str) :
  findall s ≠ []
  ↔ ∃ i j, occurs_at s tool_call_start_token i
           ∧ occurs_at s tool_call_end_token j
           ∧ i + length tool_call_start_token ≤ j.
Proof.
  rewrite findall_unfold. split.
  - destruct (find s tool_call_start_token) as [p|] eqn:Hp; [|done].
    cbv zeta.
    destruct (find (drop _ s) tool_call_end_token) as [q|] eqn:Hq; [|done].
    intros _. exists p, (p + length tool_call_start_token + q).
    apply find_Some in Hp as [Hp _]. apply find_Some in Hq as [Hq _].
    split; [done|]. split; [|lia]. by apply occurs_at_drop.
  - intros (i & j & Hi & Hj & Hij).
    destruct (find_is_Some _ _ _ Hi) as [p Hp]. rewrite Hp. cbv zeta.
    pose proof (find_le _ _ _ _ Hp Hi) as Hle.
    apply find_Some in Hp as [Hp _]. apply occurs_at_length in Hp.
    replace j with (p + length tool_call_start_token
                    + (j - (p + length tool_call_start_token))) in Hj by lia.
    apply occurs_at_drop_inv in Hj; [|done].
    destruct (find_is_Some _ _ _ Hj) as [q Hq]. by rewrite Hq.
Qed.

(** * Further properties of the one-shot extraction *)

Lemma find_prefix_None (a b m : str) p :
  m ≠ [] → find (a ++ b) m = Some p → length a ≤ p → find a m = None.
Proof.
  intros Hne Hp Hle. apply find_None. intros j Hj.
  pose proof (occurs_at_length _ _ _ Hj).
  apply (occurs_at_app_l _ b) in Hj.
  pose proof (find_le _ _ _ _ Hp Hj). destruct m; [done|]. simpl in *. lia.
Qed.

Section OneShotMore.
Context (json_loads : str → option value) (FunctionCall_name : value → option str).

#[local] Abbreviation build := (tool_call_of_json json_loads FunctionCall_name).
#[local] Abbreviation extract := (extract_tool_calls json_loads FunctionCall_name).

Lemma tool_call_of_json_type (j : str) tc : build j = Some tc → type tc = txt "function".
Proof.
  unfold tool_call_of_json. intros H.
  destruct (json_loads j) as [[]|]; simplify_option_eq; done.
Qed.

Lemma extract_cases (model_output : str) :
  (tools_called (extract model_output) = false
   ∧ tool_calls (extract model_output) = []
   ∧ content (extract model_output) = Some (_strip_think_tags model_output)
   ∧ (find (_strip_think_tags model_output) tool_call_start_token = None
      ∨ mapM build (findall (_strip_think_tags model_output)) = None))
  ∨ (tools_called (extract model_output) = true
     ∧ mapM build (findall (_strip_think_tags model_output))
       = Some (tool_calls (extract model_output))
     ∧ ∃ p, find (_strip_think_tags model_output) tool_call_start_token = Some p
            ∧ content (extract model_output)
              = nonempty (rstrip_newline (take p (_strip_think_tags model_output)))).
Proof.
  destruct (find (_strip_think_tags model_output) tool_call_start_token) as [p|] eqn:Hp.
  - rewrite (extract_start _ _ _ p Hp).
    destruct (mapM _ _) as [calls|] eqn:Hm.
    + right. repeat split; eauto.
    + left. repeat split; eauto.
  - rewrite extract_no_start by by apply contains_false.
    left. repeat split; eauto.
Qed.

(** X4. The verdict of [extract_tool_calls].  The result is "called"
    exactly when the stripped text holds the start marker and a record
    can be built from every located span; then the calls are the
    records of the spans, in order, each of type "function".  A result
    that is not "called" carries no call and has the whole stripped
    text as content. *)
Theorem extract_tool_calls_verdict (model_output : str) :
  (tools_called (extract model_output) = true
   ↔ contains (_strip_think_tags model_output) tool_calls_start_token = true
     ∧ is_Some (mapM build (findall (_strip_think_tags model_output))))
  ∧ (tools_called (extract model_output) = true →
     mapM build (findall (_strip_think_tags model_output))
     = Some (tool_calls (extract model_output)))
  ∧ (tools_called (extract model_output) = false →
     tool_calls (extract model_output) = []
     ∧ content (extract model_output) = Some (_strip_think_tags model_output))
  ∧ Forall (λ tc, type tc = txt "function") (tool_calls (extract model_output)).
Proof.
  destruct (extract_cases model_output)
    as [(Hv & Hc & Hn & Hwhy)|(Hv & Hm & p & Hp & Hn)];
    rewrite Hv.
  - split; [|by rewrite Hc].
    split; [done|]. intros [Hs Hb].
    destruct Hwhy as [Hnone|Hnone].
    + apply contains_start_find in Hs as [p Hp]. congruence.
    + rewrite Hnone in Hb. by destruct Hb.
  - split.
    { split; [|done]. intros _. split; [|by rewrite Hm].
      unfold contains, tool_calls_start_token. by rewrite Hp. }
    split; [done|]. split; [done|].
    apply mapM_Some in Hm.
    induction Hm as [|j tc js tcs Hj _ IH]; constructor; [|done].
    by apply tool_call_of_json_type in Hj.
Qed.

(** X5. When the result is "called", its content is the text before
    the first start marker with the newlines at its end removed: it
    does not end in a newline and holds no start marker (the absent
    content standing for the empty text). *)
Theorem extract_tool_calls_content_before_marker (model_output : str) :
  tools_called (extract model_output) = true →
  ∃ p k,
    find (_strip_think_tags model_output) tool_call_start_token = Some p
    ∧ take p (_strip_think_tags model_output)
      = default [] (content (extract model_output)) ++ replicate k newline
    ∧ last (default [] (content (extract model_output))) ≠ Some newline
    ∧ find (default [] (content (extract model_output))) tool_call_start_token = None.
Proof.
  intros Hv.
  destruct (extract_cases model_output)
    as [(Hv' & _)|(_ & _ & p & Hp & Hn)]; [congruence|].
  assert (default [] (content (extract model_output))
          = rstrip_newline (take p (_strip_think_tags model_output))) as ->.
  { rewrite Hn. by destruct (rstrip_newline _). }
  destruct (rstrip_newline_split (take p (_strip_think_tags model_output))) as [k Hk].
  exists p, k. split; [done|]. split; [done|]. split; [apply rstrip_newline_last|].
  rewrite <- (take_drop p (_strip_think_tags model_output)), Hk,
    <- (assoc_L (++)) in Hp.
  eapply find_prefix_None; [done|apply Hp|].
  apply (f_equal length) in Hk. rewrite length_app in Hk.
  rewrite length_take in Hk.
  apply find_Some in Hp as [Hp%occurs_at_length _]. lia.
Qed.

(** X6. A narration section around a part of the text is transparent:
    when the text without the two delimiters holds no delimiter, the
    delimiters are removed and nothing else, and the extraction gives
    the same result as on the text without them. *)
Theorem think_section_transparent (a b c : str) :
  no_think (a ++ b ++ c) →
  _strip_think_tags (a ++ think_open ++ b ++ think_close ++ c) = a ++ b ++ c
  ∧ extract (a ++ think_open ++ b ++ think_close ++ c) = extract (a ++ b ++ c).
Proof.
  intros Hn. pose proof (strip_think_section a b c Hn) as Hs.
  split; [done|]. apply extract_strip_eq. by rewrite Hs, strip_no_think.
Qed.

End OneShotMore.

(** * Further properties of the streaming method *)

Lemma before_marker_no_start (s : str) p :
  find s tool_call_start_token = Some p →
  find (rstrip_newline (take p s)) tool_call_start_token = None.
Proof.
  intros Hp. destruct (rstrip_newline_split (take p s)) as [k Hk].
  pose proof Hp as Hp'.
  rewrite <- (take_drop p s), Hk, <- (assoc_L (++)) in Hp'.
  eapply find_prefix_None; [done|apply Hp'|].
  apply (f_equal length) in Hk. rewrite length_app, length_take in Hk.
  apply find_Some in Hp as [Hp%occurs_at_length _]. lia.
Qed.

Lemma nonempty_Some (s c : str) : nonempty s = Some c → c = s.
Proof. destruct s; [done|]. by intros [= <-]. Qed.

Lemma set_buffer_same (self : TrinityToolParser) : set_buffer self (_buffer self) = self.
Proof. by destruct self. Qed.

Lemma set_buffer_twice (self : TrinityToolParser) (a b : str) :
  set_buffer (set_buffer self a) b = set_buffer self b.
Proof. done. Qed.

Lemma find_from_0 (s m : str) : find_from s m 0 = find s m.
Proof. unfold find_from. rewrite drop_0. by destruct (find s m). Qed.

Lemma find_app_None (a b m : str) : find (a ++ b) m = None → find a m = None.
Proof. intros H. apply (find_None_sub [] a b). done. Qed.

Lemma find_from_start (a : str) s :
  find a tool_call_start_token = Some s →
  find_from a tool_call_end_token s
  = (λ q, s + length tool_call_start_token + q)
      <$> find (drop (s + length tool_call_start_token) a) tool_call_end_token.
Proof.
  intros Hs. apply find_Some in Hs as [[Hlen [r Hr]] _].
  unfold find_from. rewrite <- drop_drop, Hr, drop_app_length, find_end_after_start.
  destruct (find r _); simpl; [f_equal; lia | done].
Qed.

Section StreamingMore.
Context (json_loads : str → option value) (FunctionCall_name : value → option str).

#[local] Abbreviation build := (tool_call_of_json json_loads FunctionCall_name).
#[local] Abbreviation extract := (extract_tool_calls json_loads FunctionCall_name).
#[local] Abbreviation step := (extract_tool_calls_streaming json_loads FunctionCall_name).
#[local] Abbreviation run := (session json_loads FunctionCall_name).

Lemma passthrough (deltas : list str) (self : TrinityToolParser) :
  _buffer self = [] → (current_tool_id self ≤ 0)%Z →
  Forall (λ d, find (_strip_think_tags d) tool_call_start_token = None) deltas →
  run self deltas = ((λ d, content_only (_strip_think_tags d)) <$> deltas, self, false).
Proof.
  intros Hb Hid. induction 1 as [|d deltas Hd _ IH]; [done|].
  cbn [session]. rewrite step_no_start by (by rewrite Hb).
  rewrite <- Hb, set_buffer_same, IH, Hb.
  destruct (Z.ltb_spec 0 (current_tool_id self)); [lia|]. done.
Qed.

(** X7. Narration passes through.  When no call of a session on a new
    parser finds the start marker in its stripped fragment, every call
    returns that stripped fragment as content (no content when it is
    empty) and no tool call, and the parser is left as it was created:
    nothing is held back in the buffer. *)
Theorem streaming_narration_passthrough (deltas : list str) :
  Forall (λ d, find (_strip_think_tags d) tool_call_start_token = None) deltas →
  run init deltas
  = ((λ d, Some {| delta_content := nonempty (_strip_think_tags d);
                   delta_tool_calls := [] |}) <$> deltas,
     init, false).
Proof. intros H. by apply passthrough. Qed.

(** X8. Waiting for the end marker.  While the buffer starts with the
    start marker and no end marker has arrived, every call returns a
    message with neither content nor tool call, and the buffer grows by
    the stripped fragments: nothing of an unfinished block is emitted
    or lost. *)
Theorem streaming_waits_for_end (deltas : list str) (self : TrinityToolParser) :
  tool_call_start_token `prefix_of` _buffer self →
  find (_buffer self ++ concat (_strip_think_tags <$> deltas)) tool_call_end_token = None →
  run self deltas
  = (replicate (length deltas) (Some {| delta_content := None; delta_tool_calls := [] |}),
     set_buffer self (_buffer self ++ concat (_strip_think_tags <$> deltas)),
     false).
Proof.
  revert self. induction deltas as [|d deltas IH]; intros self [r Hr] Hend.
  { simpl. by rewrite app_nil_r, set_buffer_same. }
  cbn [fmap list_fmap concat] in Hend |- *. rewrite (assoc_L (++)) in Hend |- *.
  set (cur := _buffer self ++ _strip_think_tags d) in *.
  assert (find cur tool_call_start_token = Some 0) as Hs.
  { unfold cur. rewrite Hr, <- (assoc_L (++)). apply find_head. }
  assert (find_from cur tool_call_end_token 0 = None) as He.
  { rewrite find_from_0. by apply find_app_None in Hend. }
  cbn [session]. rewrite (step_open _ _ self d 0 Hs He). fold cur.
  rewrite drop_0. cbn [take rstrip_newline nonempty].
  rewrite (IH (set_buffer self cur)).
  - by rewrite set_buffer_twice.
  - exists (r ++ _strip_think_tags d). simpl. unfold cur. by rewrite Hr, <- (assoc_L (++)).
  - done.
Qed.

(** X9. What a call returns.  A message carries at most one tool
    call; its content is never the empty text, and never holds the
    start marker. *)
Theorem streaming_message (self self' : TrinityToolParser) (delta_text : str)
    (m : DeltaMessage) :
  step self delta_text = Returned self' (Some m) →
  length (delta_tool_calls m) ≤ 1
  ∧ delta_content m ≠ Some []
  ∧ ∀ c, delta_content m = Some c → find c tool_call_start_token = None.
Proof.
  set (cur := _buffer self ++ _strip_think_tags delta_text).
  destruct (find cur tool_call_start_token) as [s|] eqn:Hs.
  2:{ rewrite step_no_start by done. intros [= _ <-]. simpl.
      split; [lia|]. split; [apply nonempty_not_empty|].
      intros c Hc. destruct (0 <? current_tool_id self)%Z; [done|].
      by apply nonempty_Some in Hc as ->. }
  destruct (find_from cur tool_call_end_token s) as [e|] eqn:He.
  2:{ rewrite (step_open _ _ self delta_text s Hs He). intros [= _ <-]. simpl.
      split; [lia|]. split; [apply nonempty_not_empty|].
      intros c Hc. apply nonempty_Some in Hc as ->.
      by apply before_marker_no_start. }
  rewrite (step_closed _ _ self delta_text s e Hs He). cbv zeta. fold cur.
  set (x := take (e + length tool_call_end_token) cur).
  destruct (extract_cases json_loads FunctionCall_name x)
    as [(_ & Hc & _)|(_ & _ & p & Hp & Hn)].
  { by rewrite Hc. }
  destruct (tool_calls (extract x)) as [|tc tcs]; [done|].
  destruct (json_loads _); [|done].
  destruct (setitem _ _ _); [|done].
  destruct (setitem _ _ _); [|done].
  intros [= _ <-]. simpl. split; [lia|]. rewrite Hn.
  split; [apply nonempty_not_empty|].
  intros c Hc. apply nonempty_Some in Hc as ->.
  by apply before_marker_no_start.
Qed.

(** X10. A call that starts from a call index of at least -1 returns,
    unless [json.loads] rejects the arguments text of the first call
    of the balanced span: the assignments into the two per-index lists
    never raise.  When it raises, the parser is left with the fragment
    appended to the buffer. *)
Theorem streaming_returns_or_loads_fails (self : TrinityToolParser) (delta_text : str) :
  (-1 ≤ current_tool_id self)%Z →
  (∃ self' r, step self delta_text = Returned self' r)
  ∨ (∃ s e tc rest,
       find (_buffer self ++ _strip_think_tags delta_text) tool_call_start_token = Some s
       ∧ find_from (_buffer self ++ _strip_think_tags delta_text) tool_call_end_token s
         = Some e
       ∧ tool_calls
           (extract (take (e + length tool_call_end_token)
                       (_buffer self ++ _strip_think_tags delta_text)))
         = tc :: rest
       ∧ json_loads (arguments (function tc)) = None
       ∧ step self delta_text
         = Raised (prepare (set_buffer self
                              (_buffer self ++ _strip_think_tags delta_text)))).
Proof.
  intros Hid.
  set (cur := _buffer self ++ _strip_think_tags delta_text).
  destruct (find cur tool_call_start_token) as [s|] eqn:Hs.
  2:{ left. rewrite step_no_start by done. by eexists _, _. }
  destruct (find_from cur tool_call_end_token s) as [e|] eqn:He.
  2:{ left. rewrite (step_open _ _ self delta_text s Hs He). by eexists _, _. }
  rewrite (step_closed _ _ self delta_text s e Hs He). cbv zeta. fold cur.
  destruct (tool_calls (extract _)) as [|tc tcs] eqn:Hx.
  { left. by eexists _, _. }
  destruct (json_loads (arguments (function tc))) as [loaded|] eqn:Hl.
  2:{ right. by exists s, e, tc, tcs. }
  left.
  generalize (prepare_lengths (set_buffer self cur)).
  generalize (prepare_id (set_buffer self cur)).
  generalize (next_index_nonneg (set_buffer self cur) Hid).
  generalize (prepare (set_buffer self cur)) as self1.
  generalize (next_index (set_buffer self cur)) as i.
  intros i self1 Hnn Hpid [Hl1 Hl2].
  destruct (setitem_is_Some (prev_tool_call_arr self1) (current_tool_id self1)
              (JDict [(txt "name", JStr (name (function tc))); (txt "arguments", loaded)]))
    as (arr & -> & _); [lia|].
  destruct (setitem_is_Some (streamed_args_for_tool self1) (current_tool_id self1)
              (arguments (function tc)))
    as (args & -> & _); [lia|].
  by eexists _, _.
Qed.

End StreamingMore.

(** * The streaming state *)

Lemma setitem_last {A : Type} (l : list A) (i : Z) (x : A) :
  (0 ≤ i)%Z → Z.of_nat (length l) = (i + 1)%Z →
  setitem l i x = Some (take (Z.to_nat i) l ++ [x]).
Proof.
  intros Hi Hl. unfold setitem. rewrite bool_decide_true by lia. f_equal.
  rewrite insert_take_drop by lia. f_equal.
  by rewrite drop_ge by lia.
Qed.

Lemma length_grow_exact {A : Type} (l : list A) (i : Z) (x : A) :
  (0 ≤ i)%Z → length l ≤ S (Z.to_nat i) → length (grow l i x) = S (Z.to_nat i).
Proof. intros Hi Hl. unfold grow. rewrite length_app, length_replicate. lia. Qed.

Lemma take_grow {A : Type} (l : list A) (i : Z) (x : A) n :
  n ≤ length l → take n (grow l i x) = take n l.
Proof. intros Hn. unfold grow. by rewrite take_app_le. Qed.

Section StreamingState.
Context (json_loads : str → option value) (FunctionCall_name : value → option str).

#[local] Abbreviation build := (tool_call_of_json json_loads FunctionCall_name).
#[local] Abbreviation extract := (extract_tool_calls json_loads FunctionCall_name).
#[local] Abbreviation step := (extract_tool_calls_streaming json_loads FunctionCall_name).
#[local] Abbreviation run := (session json_loads FunctionCall_name).

(** ** Empty fragments let the held calls out *)

Lemma flush_step (self : TrinityToolParser) (calls : list ToolCall) :
  (-1 ≤ current_tool_id self)%Z →
  no_think (_buffer self) →
  mapM build (findall (_buffer self)) = Some calls →
  Forall (λ tc, is_Some (json_loads (arguments (function tc)))) calls →
  ∃ self' r,
    step self [] = Returned self' r
    ∧ (-1 ≤ current_tool_id self')%Z
    ∧ no_think (_buffer self')
    ∧ mapM build (findall (_buffer self')) = Some (drop 1 calls)
    ∧ delta_function <$> emitted [r] = function <$> take 1 calls.
Proof.
  intros Hid Hnt Hcalls Hrt.
  assert (_buffer self ++ _strip_think_tags [] = _buffer self) as Hcur
    by apply app_nil_r.
  destruct (find (_buffer self) tool_call_start_token) as [s|] eqn:Hs.
  2:{ rewrite step_no_start by (by rewrite Hcur).
      rewrite findall_no_start in Hcalls by done. injection Hcalls as <-.
      eexists _, _. split; [done|]. by repeat split. }
  pose proof (find_from_start _ _ Hs) as Hfrom.
  destruct (find (drop _ (_buffer self)) tool_call_end_token) as [q|] eqn:Hq;
    cbn [fmap option_fmap option_map] in Hfrom.
  2:{ rewrite (step_open _ _ self [] s) by (by rewrite Hcur). rewrite Hcur.
      assert (findall (_buffer self) = []) as Hnone
        by (by rewrite findall_unfold, Hs; cbv zeta; rewrite Hq).
      rewrite Hnone in Hcalls. injection Hcalls as <-.
      eexists _, _. split; [done|]. simpl. split; [done|]. split; [|split; [|done]].
      - rewrite <- (take_drop s (_buffer self)) in Hnt. by apply no_think_suffix in Hnt.
      - rewrite <- (take_drop s (_buffer self)) in Hnone at 1.
        rewrite findall_skip in Hnone; [by rewrite Hnone|].
        intros i Hi. rewrite take_drop in Hi. rewrite length_take.
        pose proof (find_le _ _ _ _ Hs Hi). lia. }
  set (e := s + length tool_call_start_token + q) in *.
  set (n := e + length tool_call_end_token).
  pose proof (findall_closed _ (drop n (_buffer self)) s e Hs Hfrom) as Hf.
  fold n in Hf. rewrite take_drop in Hf. rewrite Hf in Hcalls.
  cbn [mapM] in Hcalls. apply bind_Some in Hcalls as (tc & Htc & Hcalls).
  apply bind_Some in Hcalls as (calls' & Hcalls' & [= <-]).
  apply Forall_cons in Hrt as [Hrt1 Hrt].
  assert (tool_calls (extract (take n (_buffer self))) = [tc]) as Hx.
  { apply extract_calls.
    - rewrite <- (take_drop n (_buffer self)) in Hnt. by apply no_think_prefix in Hnt.
    - pose proof (findall_closed _ [] s e Hs Hfrom) as Hf'. fold n in Hf'.
      rewrite app_nil_r in Hf'. rewrite Hf'. cbn [mapM]. by rewrite Htc. }
  destruct (step_emit json_loads FunctionCall_name self [] s e tc) as (self' & m & Hstep & Hm & Hbuf & Hid');
    rewrite ?Hcur; try done.
  rewrite Hcur in Hbuf. fold n in Hbuf.
  exists self', (Some m). split; [done|]. split; [done|]. rewrite Hbuf.
  split; [|split; [done|]].
  - rewrite <- (take_drop n (_buffer self)) in Hnt. by apply no_think_suffix in Hnt.
  - rewrite emitted_cons. simpl. by rewrite app_nil_r.
Qed.

Lemma flush_session (self : TrinityToolParser) (calls : list ToolCall) (m : nat) :
  (-1 ≤ current_tool_id self)%Z →
  no_think (_buffer self) →
  mapM build (findall (_buffer self)) = Some calls →
  Forall (λ tc, is_Some (json_loads (arguments (function tc)))) calls →
  (run self (replicate m [])).2 = false
  ∧ delta_function <$> emitted (run self (replicate m [])).1.1 = function <$> take m calls
  ∧ mapM build (findall (_buffer (run self (replicate m [])).1.2)) = Some (drop m calls).
Proof.
  revert self calls. induction m as [|m IH]; intros self calls Hid Hnt Hcalls Hrt.
  { simpl. by rewrite drop_0. }
  destruct (flush_step self calls Hid Hnt Hcalls Hrt)
    as (self' & r & Hstep & Hid' & Hnt' & Hcalls' & Hem).
  cbn [replicate session]. rewrite Hstep.
  destruct (IH self' (drop 1 calls) Hid' Hnt' Hcalls') as (IH1 & IH2 & IH3).
  { by apply Forall_drop. }
  destruct (run self' (replicate m [])) as [[rs self''] raised]. cbn [fst snd] in *.
  split; [done|]. split.
  - rewrite emitted_cons, fmap_app, IH2.
    rewrite emitted_cons, app_nil_r in Hem. rewrite Hem, <- fmap_app.
    f_equal. destruct calls; [simpl; by rewrite take_nil | done].
  - by rewrite IH3, drop_drop.
Qed.

(** X11. Empty fragments let the held calls out, one per call.  From a
    state whose buffer holds no narration delimiter and whose blocks
    all yield records that [json.loads] reads back, a session of [m]
    empty fragments raises nothing, emits the first [m] calls of the
    buffer in order, and leaves the others in the buffer. *)
Theorem streaming_flush (self : TrinityToolParser) (calls : list ToolCall) (m : nat) :
  (-1 ≤ current_tool_id self)%Z →
  no_think (_buffer self) →
  mapM build (findall (_buffer self)) = Some calls →
  Forall (λ tc, is_Some (json_loads (arguments (function tc)))) calls →
  (run self (replicate m [])).2 = false
  ∧ delta_function <$> emitted (run self (replicate m [])).1.1 = function <$> take m calls
  ∧ mapM build (findall (_buffer (run self (replicate m [])).1.2)) = Some (drop m calls).
Proof. apply flush_session. Qed.

(** ** The per-index lists *)

Lemma prepare_books (self : TrinityToolParser) (cur : str) em :
  books json_loads self em →
  current_tool_id (prepare (set_buffer self cur)) = Z.of_nat (length em)
  ∧ length (prev_tool_call_arr (prepare (set_buffer self cur))) = S (length em)
  ∧ length (streamed_args_for_tool (prepare (set_buffer self cur))) = S (length em)
  ∧ take (length em) (streamed_args_for_tool (prepare (set_buffer self cur)))
    = (λ tc, arguments (delta_function tc)) <$> em
  ∧ Forall2 (recorded json_loads)
      (take (length em) (prev_tool_call_arr (prepare (set_buffer self cur)))) em.
Proof.
  intros (Hn & Hid & Hlen & Hle & Hargs & Harr).
  destruct self as [sent arr id args buf].
  unfold prepare, next_index in *. simpl in *.
  destruct (Z.eqb_spec id (-1)) as [->|Hne]; simpl.
  - assert (length em = 0) as Hz by lia. rewrite Hz. destruct em; [|done].
    repeat split; constructor.
  - rewrite !length_grow_exact, !take_grow by lia.
    replace (Z.to_nat id) with (length em) by lia. done.
Qed.

Lemma step_books (self : TrinityToolParser) (delta_text : str) em :
  books json_loads self em →
  match step self delta_text with
  | Returned self' r => books json_loads self' (em ++ emitted [r])
  | Raised self' => books json_loads self' em
  end.
Proof.
  intros Hb.
  set (cur := _buffer self ++ _strip_think_tags delta_text).
  destruct (find cur tool_call_start_token) as [s|] eqn:Hs.
  2:{ rewrite step_no_start by done. simpl. by rewrite app_nil_r. }
  destruct (find_from cur tool_call_end_token s) as [e|] eqn:He.
  2:{ rewrite (step_open _ _ self delta_text s Hs He). simpl. by rewrite app_nil_r. }
  rewrite (step_closed _ _ self delta_text s e Hs He). cbv zeta. fold cur.
  destruct (prepare_books self cur em Hb) as (Hid & Hl1 & Hl2 & Hargs & Harr).
  generalize dependent (prepare (set_buffer self cur)). intros self0 Hid Hl1 Hl2 Hargs Harr.
  assert (books json_loads self0 em) as Hb0.
  { unfold books, next_index. rewrite Hid.
    destruct (Z.eqb_spec (Z.of_nat (length em)) (-1)); [lia|].
    repeat split; try done; lia. }
  destruct (tool_calls (extract _)) as [|tc tcs].
  { simpl. by rewrite app_nil_r. }
  destruct (json_loads (arguments (function tc))) as [loaded|] eqn:Hl; [|done].
  rewrite !setitem_last by lia. rewrite Hid, Nat2Z.id.
  assert (∀ (A : Type) (l : list A) (x : A),
            length l = S (length em) →
            length (take (length em) l ++ [x]) = length em + 1) as Hlen.
  { intros A l x Hl'. rewrite length_app, length_take. simpl. lia. }
  unfold books, next_index. simpl.
  destruct (Z.eqb_spec (Z.of_nat (length em) + 1) (-1)); [lia|].
  rewrite (length_app em). simpl.
  rewrite !(take_ge (_ ++ _)) by (rewrite Hlen; [lia|done]).
  rewrite !Hlen by done.
  split; [lia|]. split; [lia|]. split; [done|]. split; [lia|]. split.
  - by rewrite fmap_app, Hargs.
  - apply Forall2_app; [done|]. constructor; [|constructor]. by exists loaded.
Qed.

Lemma session_books (deltas : list str) (self : TrinityToolParser) em :
  books json_loads self em →
  books json_loads (run self deltas).1.2 (em ++ emitted (run self deltas).1.1).
Proof.
  revert self em. induction deltas as [|d deltas IH]; intros self em Hb.
  { simpl. by rewrite app_nil_r. }
  cbn [session]. pose proof (step_books self d em Hb) as Hstep.
  destruct (step self d) as [self' r|self'].
  - specialize (IH self' _ Hstep).
    destruct (run self' deltas) as [[rs self''] raised]. cbn [fst snd] in *.
    rewrite emitted_cons. rewrite emitted_cons, app_nil_r, <- (assoc_L (++)) in IH. done.
  - simpl. by rewrite app_nil_r.
Qed.

(** X12. The two per-index lists record the emitted calls.  After any
    session on a new parser, with [k] tool-call fragments emitted, the
    lists have the same length, [k] or [k + 1]; the first [k] entries
    of [streamed_args_for_tool] are the arguments texts of the
    fragments in emission order, and the first [k] entries of
    [prev_tool_call_arr] are objects with the name of the fragment and
    the value [json.loads] reads from its arguments text. *)
Theorem streaming_bookkeeping (deltas : list str) :
  length (prev_tool_call_arr (run init deltas).1.2)
  = length (streamed_args_for_tool (run init deltas).1.2)
  ∧ length (emitted (run init deltas).1.1)
    ≤ length (streamed_args_for_tool (run init deltas).1.2)
    ≤ S (length (emitted (run init deltas).1.1))
  ∧ take (length (emitted (run init deltas).1.1))
      (streamed_args_for_tool (run init deltas).1.2)
    = (λ tc, arguments (delta_function tc)) <$> emitted (run init deltas).1.1
  ∧ Forall2 (recorded json_loads)
      (take (length (emitted (run init deltas).1.1))
         (prev_tool_call_arr (run init deltas).1.2))
      (emitted (run init deltas).1.1).
Proof.
  assert (books json_loads init []) as Hb by (repeat split; simpl; try lia; constructor).
  apply (session_books deltas) in Hb. simpl in Hb.
  by destruct Hb as (_ & _ & ? & ? & ? & ?).
Qed.

End StreamingState.

(** * Streaming followed by empty fragments *)

Lemma emitted_app (rs1 rs2 : list (option DeltaMessage)) :
  emitted (rs1 ++ rs2) = emitted rs1 ++ emitted rs2.
Proof. unfold emitted. apply bind_app. Qed.

Section StreamingComplete.
Context (json_loads : str → option value) (FunctionCall_name : value → option str).

#[local] Abbreviation build := (tool_call_of_json json_loads FunctionCall_name).
#[local] Abbreviation extract := (extract_tool_calls json_loads FunctionCall_name).
#[local] Abbreviation step := (extract_tool_calls_streaming json_loads FunctionCall_name).
#[local] Abbreviation run := (session json_loads FunctionCall_name).

Lemma session_app (self : TrinityToolParser) (d1 d2 : list str) :
  (run self d1).2 = false →
  run self (d1 ++ d2)
  = ((run self d1).1.1 ++ (run (run self d1).1.2 d2).1.1,
     (run (run self d1).1.2 d2).1.2,
     (run (run self d1).1.2 d2).2).
Proof.
  revert self. induction d1 as [|d d1 IH]; intros self Hr.
  { simpl. by destruct (run self d2) as [[??]?]. }
  cbn [app session] in Hr |- *.
  destruct (step self d) as [self' r|self']; [|done].
  specialize (IH self').
  destruct (run self' d1) as [[rs1 s1] raised1]. cbn [fst snd] in *.
  rewrite IH by done. done.
Qed.

Lemma session_id_ge (deltas : list str) (self : TrinityToolParser) :
  (-1 ≤ current_tool_id self)%Z → (-1 ≤ current_tool_id (run self deltas).1.2)%Z.
Proof.
  revert self. induction deltas as [|d deltas IH]; intros self Hid; [done|].
  cbn [session]. pose proof (step_index json_loads FunctionCall_name self d Hid) as Hstep.
  destruct (step self d) as [self' r|self'].
  - destruct Hstep as [Hid' _]. specialize (IH self' Hid').
    by destruct (run self' deltas) as [[??]?].
  - by destruct Hstep.
Qed.

(** X13. Streaming followed by empty fragments gives the one-shot
    calls.  For fragments whose concatenation holds no narration
    delimiter, with no start marker across a boundary, every block of
    which yields a record that [json.loads] reads back: the session on
    a new parser over the fragments followed by at least as many empty
    fragments as there are calls raises nothing and emits exactly the
    calls of the one-shot extraction on the concatenation, in order. *)
Theorem streaming_then_flush (deltas : list str) (calls : list ToolCall) (m : nat) :
  no_think (concat deltas) →
  (∀ k, ¬ straddles (concat (take k deltas)) (concat (drop k deltas))
          tool_call_start_token) →
  mapM build (findall (concat deltas)) = Some calls →
  Forall (λ tc, is_Some (json_loads (arguments (function tc)))) calls →
  length calls ≤ m →
  (run init (deltas ++ replicate m [])).2 = false
  ∧ delta_function <$> emitted (run init (deltas ++ replicate m [])).1.1
    = function <$> tool_calls (extract (concat deltas)).
Proof.
  intros Hnt Hstr Hcalls Hrt Hm.
  rewrite (extract_calls _ _ _ calls Hnt Hcalls).
  destruct (stream_calls json_loads FunctionCall_name deltas init calls)
    as (Hr & Hnt' & rest & Hrest & Heq); try done.
  pose proof (session_id_ge deltas init ltac:(done)) as Hid.
  rewrite session_app by done. cbn [fst snd].
  assert (Forall (λ tc, is_Some (json_loads (arguments (function tc)))) rest) as Hrt'.
  { apply (Forall_fmap function (λ f, is_Some (json_loads (arguments f)))) in Hrt.
    apply (Forall_fmap function (λ f, is_Some (json_loads (arguments f)))).
    rewrite <- Heq in Hrt. by apply Forall_app in Hrt as [_ ?]. }
  destruct (flush_session json_loads FunctionCall_name _ rest m Hid Hnt' Hrest Hrt')
    as (Hr2 & Hem & _).
  split; [done|].
  rewrite emitted_app, fmap_app, Hem, <- Heq. do 2 f_equal.
  apply take_ge. apply (f_equal length) in Heq. rewrite length_app, !length_fmap in Heq. lia.
Qed.

End StreamingComplete.

(** * Streaming against the one-shot extraction *)



Section StreamingRefines.
Context (json_loads : str → option value) (FunctionCall_name : value → option str).

#[local] Abbreviation build := (tool_call_of_json json_loads FunctionCall_name).
#[local] Abbreviation extract := (extract_tool_calls json_loads FunctionCall_name).
#[local] Abbreviation step := (extract_tool_calls_streaming json_loads FunctionCall_name).
#[local] Abbreviation run := (session json_loads FunctionCall_name).
#[local] Abbreviation reads_back :=
  (λ tc : ToolCall, is_Some (json_loads (arguments (function tc)))).




End StreamingRefines.

(** * The loop of the streaming test *)

Lemma test_loop_by_index (results : list (option DeltaMessage)) :
  (test_loop results).2
  = foldl (λ by_index chunk, <[index chunk := chunk]> by_index) ∅ (emitted results).
Proof.
  unfold test_loop.
  change (∅ : gmap Z DeltaToolCall) with (([], ∅) : str * gmap Z DeltaToolCall).2 at 2.
  generalize (([], ∅) : str * gmap Z DeltaToolCall).
  induction results as [|r rs IH]; intros acc; [done|].
  rewrite emitted_cons, foldl_app. cbn [foldl]. rewrite IH.
  by destruct acc, r.
Qed.

Lemma test_loop_content (cs : list str) :
  test_loop (content_only <$> cs) = (concat cs, ∅).
Proof.
  unfold test_loop. generalize (∅ : gmap Z DeltaToolCall). intros t.
  rewrite <- (app_nil_l (concat cs)). generalize (@nil ascii).
  induction cs as [|c cs IH]; intros acc.
  - by rewrite app_nil_r.
  - cbn [fmap list_fmap foldl concat]. rewrite (assoc_L (++)), <- IH.
    by destruct c; rewrite ?app_nil_r.
Qed.

Lemma by_index_seq (l : list DeltaToolCall) :
  index <$> l = seqZ 0 (Z.of_nat (length l)) →
  size (foldl (λ by_index chunk, <[index chunk := chunk]> by_index) (∅ : gmap Z _) l)
  = length l
  ∧ ∀ i : nat,
      foldl (λ by_index chunk, <[index chunk := chunk]> by_index) (∅ : gmap Z _) l
        !! Z.of_nat i
      = l !! i.
Proof.
  induction l as [|x l IH] using rev_ind; intros Hidx.
  { split; [done|]. intros i. simpl. apply lookup_empty. }
  rewrite length_app, fmap_app in Hidx. simpl in Hidx.
  replace (Z.of_nat (length l + 1)) with (Z.of_nat (length l) + 1)%Z in Hidx by lia.
  rewrite seqZ_app in Hidx by lia.
  apply app_inj_1 in Hidx as [Hl Hx]; [|by rewrite length_fmap, length_seqZ, Nat2Z.id].
  simpl in Hx. injection Hx as Hx.
  destruct (IH Hl) as [IHs IHl].
  rewrite foldl_app. cbn [foldl]. rewrite Hx, Z.add_0_l.
  pose proof (IHl (length l)) as Hnone. rewrite lookup_ge_None_2 in Hnone by done.
  split.
  - rewrite map_size_insert_None by done. rewrite IHs, length_app. simpl. lia.
  - intros i. destruct (decide (i = length l)) as [->|Hne].
    + rewrite lookup_insert_eq. by rewrite list_lookup_middle.
    + rewrite lookup_insert_ne by lia. rewrite IHl.
      destruct (decide (i < length l)).
      * by rewrite lookup_app_l.
      * rewrite !lookup_ge_None_2; [done| |lia]. rewrite length_app. simpl. lia.
Qed.

Section TestLoop.
Context (json_loads : str → option value) (FunctionCall_name : value → option str).

#[local] Abbreviation run := (session json_loads FunctionCall_name).

(** X14. The loop of the streaming test loses no tool call.  After
    any session on a new parser, [tool_calls_by_index] has one entry
    per emitted tool-call fragment, and the entry under [i] is the
    [i]-th fragment emitted: no fragment overwrites another. *)
Theorem test_loop_keeps_every_call (deltas : list str) :
  size (test_loop (run init deltas).1.1).2 = length (emitted (run init deltas).1.1)
  ∧ ∀ i : nat,
      (test_loop (run init deltas).1.1).2 !! Z.of_nat i
      = emitted (run init deltas).1.1 !! i.
Proof.
  rewrite test_loop_by_index. apply by_index_seq.
  by destruct (session_indices json_loads FunctionCall_name deltas init) as [H _].
Qed.

(** X15. The loop of the streaming test on narration.  When no call
    of a session on a new parser finds the start marker in its
    stripped fragment, [accumulated_content] is the concatenation of
    the stripped fragments and [tool_calls_by_index] stays empty. *)
Theorem test_loop_narration (deltas : list str) :
  Forall (λ d, find (_strip_think_tags d) tool_call_start_token = None) deltas →
  test_loop (run init deltas).1.1 = (concat (_strip_think_tags <$> deltas), ∅).
Proof.
  intros H. rewrite (passthrough _ _ deltas init) by done. cbn [fst].
  by rewrite <- test_loop_content, <- list_fmap_compose.
Qed.

End TestLoop.

(** * Instances: the statements at concrete texts *)



(** C2 fails as stated: a payload that holds the text of the end marker
    in a string is cut at that place, the cut text does not parse, and
    the extraction falls back. *)
Lemma extract_tool_calls_end_marker_in_payload :
  well_formed ref_json_loads block_end_inside (txt "f")
    (JDict [(txt "q", JStr (txt "</tool_call>"))])
  ∧ no_think (block_text block_end_inside)
  ∧ findall (block_text block_end_inside) = [py "{'name': 'f', 'arguments': {'q': '"]
  ∧ tools_called (ref_extract_tool_calls (block_text block_end_inside)) = false
  ∧ tool_calls (ref_extract_tool_calls (block_text block_end_inside)) = [].
Proof.
  split; [|by vm_compute].
  split.
  - repeat split; try constructor.
  - eexists. by vm_compute.
Qed.

(** Two blocks, the second with newlines around its payload. *)
Lemma extract_tool_calls_blocks_witness :
  tools_called
    (ref_extract_tool_calls
       (concat [block_text (block_of [] payload_a []);
                block_text {| sep := [newline]; lead := [newline];
                              payload := payload_b; trail := [newline] |}] ++ [newline]))
  = true
  ∧ tool_calls
      (ref_extract_tool_calls
         (concat [block_text (block_of [] payload_a []);
                  block_text {| sep := [newline]; lead := [newline];
                                payload := payload_b; trail := [newline] |}] ++ [newline]))
    = [ {| type := txt "function"; function := function_a |};
        {| type := txt "function"; function := function_b |} ].
Proof.
  apply (extract_tool_calls_blocks ref_json_loads ref_FunctionCall_name
           [ (block_of [] payload_a [], txt "a", JDict [(txt "x", JInt 1)]);
             ({| sep := [newline]; lead := [newline];
                 payload := payload_b; trail := [newline] |}, txt "b", JDict []) ]
           [newline]).
  - discriminate.
  - repeat constructor; try (eexists; by vm_compute).
  - repeat constructor.
  - split; reflexivity.
  - reflexivity.
Defined.

(** Narration that follows an emitted call. *)
Lemma streaming_suppresses_narration_witness :
  ∃ self',
    extract_tool_calls_streaming ref_json_loads ref_FunctionCall_name
      (ref_session init [block_a]).1.2 (txt "and then")
    = Returned self' (Some {| delta_content := None; delta_tool_calls := [] |})
    ∧ _buffer self' = [].
Proof.
  apply (streaming_suppresses_narration ref_json_loads ref_FunctionCall_name
           [block_a] (txt "and then")).
  - by vm_compute.
  - reflexivity.
Defined.

(** A good block followed by a block whose payload does not parse. *)
Lemma extract_tool_calls_degrades_witness :
  ref_extract_tool_calls (block_a ++ txt "<tool_call>{'name': </tool_call>")
  = {| tools_called := false; tool_calls := [];
       content := Some (_strip_think_tags (block_a ++ txt "<tool_call>{'name': </tool_call>")) |}.
Proof.
  apply (extract_tool_calls_degrades ref_json_loads ref_FunctionCall_name).
  - reflexivity.
  - exists (txt "{'name':"). split; [|left; reflexivity].
    vm_compute. apply list_elem_of_further, list_elem_of_here.
Defined.

(** C7 fails as stated: the arguments text keeps the key order of the
    payload (and the separators [", "] and [": "] of [json.dumps]), so
    two payloads whose arguments are equal as JSON values get different
    texts. *)
Lemma arguments_keep_key_order :
  (∃ a a', ref_arguments payload_xy = Some a ∧ ref_arguments payload_yx = Some a'
           ∧ json_equal a a' = true)
  ∧ arguments ∘ function <$> ref_tool_call_of_json payload_xy = Some (py "{'x': 1, 'y': 2}")
  ∧ arguments ∘ function <$> ref_tool_call_of_json payload_yx = Some (py "{'y': 2, 'x': 1}")
  ∧ arguments ∘ function <$> ref_tool_call_of_json payload_xy
    ≠ arguments ∘ function <$> ref_tool_call_of_json payload_yx.
Proof. split; [eexists _, _|]; by vm_compute. Qed.

(** The record of a payload laid out with irregular spacing. *)
Lemma tool_call_record_witness :
  (dict_lookup dict_xy (txt "name") = None → name (function call_xy) = [])
  ∧ (∀ n, dict_lookup dict_xy (txt "name") = Some (JStr n) → name (function call_xy) = n)
  ∧ (dict_lookup dict_xy (txt "arguments") = None → arguments (function call_xy) = txt "{}")
  ∧ (∀ a, dict_lookup dict_xy (txt "arguments") = Some a →
          arguments (function call_xy) = json_dumps a)
  ∧ (∀ j' d' tc',
       ref_json_loads j' = Some (JDict d') → ref_tool_call_of_json j' = Some tc' →
       dict_lookup d' (txt "arguments") = dict_lookup dict_xy (txt "arguments") →
       arguments (function tc') = arguments (function call_xy)).
Proof.
  apply (tool_call_record ref_json_loads ref_FunctionCall_name payload_xy_spaced dict_xy call_xy).
  - reflexivity.
  - reflexivity.
  - reflexivity.
Defined.

(** C8 fails as stated: a text without start marker comes back as it
    is, be it empty or made of newlines only. *)
Lemma extract_tool_calls_empty_content :
  content (ref_extract_tool_calls []) = Some []
  ∧ content (ref_extract_tool_calls (txt "<think></think>")) = Some []
  ∧ content (ref_extract_tool_calls [newline]) = Some [newline].
Proof. by vm_compute. Qed.

(** A fresh parser fed a block whose payload does not parse. *)
Lemma streaming_zero_calls_stuck_witness :
  ∃ self',
    extract_tool_calls_streaming ref_json_loads ref_FunctionCall_name init
      (txt "<tool_call>oops</tool_call>")
    = Returned self' None
    ∧ _buffer self' = _buffer init ++ _strip_think_tags (txt "<tool_call>oops</tool_call>")
    ∧ (current_tool_id init = (-1)%Z →
       current_tool_id self' = 0%Z
       ∧ prev_tool_call_arr self' = [JDict []]
       ∧ streamed_args_for_tool self' = [[]])
    ∧ (current_tool_id self' < Z.of_nat (length (prev_tool_call_arr self')))%Z
    ∧ (current_tool_id self' < Z.of_nat (length (streamed_args_for_tool self')))%Z
    ∧ ∀ deltas,
        (ref_session self' deltas).1.1 = replicate (length deltas) None
        ∧ (ref_session self' deltas).2 = false
        ∧ (_buffer init ++ _strip_think_tags (txt "<tool_call>oops</tool_call>"))
          `prefix_of` _buffer (ref_session self' deltas).1.2.
Proof.
  apply (streaming_zero_calls_stuck ref_json_loads ref_FunctionCall_name init
           (txt "<tool_call>oops</tool_call>") 0 15); reflexivity.
Defined.

(** Narration, a newline and a block that is not closed: the content
    is the narration without the newline. *)
Lemma extract_tool_calls_unclosed_witness :
  ref_extract_tool_calls (txt "wait" ++ [newline] ++ txt "<tool_call>{'name': 'a'")
  = {| tools_called := true; tool_calls := []; content := Some (txt "wait") |}.
Proof.
  destruct (extract_tool_calls_unclosed ref_json_loads ref_FunctionCall_name
              (txt "wait" ++ [newline] ++ txt "<tool_call>{'name': 'a'") 5)
    as (Hcalled & Hcalls & c & k & Hsplit & Hlast & _ & Hcontent).
  - reflexivity.
  - intros i j _ Hj. exfalso. revert j Hj. by apply find_None.
  - assert (c = txt "wait") as ->
      by (by apply (trim_unique c (txt "wait") k 1); [rewrite <- Hsplit| |]).
    apply extracted_eq; [done|done|by apply Hcontent].
Defined.

(** ** The scenarios of the test suite *)

Example test_extract_tool_calls_no_tools :
  ref_extract_tool_calls (txt "Just some text.")
  = {| tools_called := false; tool_calls := []; content := Some (txt "Just some text.") |}.
Proof. by vm_compute. Qed.

Example test_extract_tool_calls_with_think_tags :
  ref_extract_tool_calls
    (txt "<think>thinking</think> prefix" ++ [newline] ++ weather_block)
  = {| tools_called := true;
       tool_calls :=
         [ {| type := txt "function";
              function := {| name := txt "get_weather";
                             arguments := py "{'location': 'Paris'}" |} |} ];
       content := Some (txt "thinking prefix") |}.
Proof. by vm_compute. Qed.

Example test_extract_tool_calls_multiple :
  tools_called (ref_extract_tool_calls (weather_block ++ [newline] ++ time_block)) = true
  ∧ name ∘ function
      <$> tool_calls (ref_extract_tool_calls (weather_block ++ [newline] ++ time_block))
    = [txt "get_weather"; txt "get_time"].
Proof. by vm_compute. Qed.

Example test_extract_tool_calls_streaming_basic :
  (ref_session init [txt "hello <think>thought</think>" ++ [newline]; weather_block]).1.1
  = [ Some {| delta_content := Some (txt "hello thought" ++ [newline]);
              delta_tool_calls := [] |};
      Some {| delta_content := None;
              delta_tool_calls :=
                [ {| index := 0; delta_type := txt "function";
                     delta_function :=
                       {| name := txt "get_weather";
                          arguments := py "{'location': 'Paris'}" |} |} ] |} ].
Proof. by vm_compute. Qed.

(** ** Instances of the further properties *)

(** Narration with two newlines before a block: the content is the
    narration without them. *)
Lemma extract_tool_calls_content_before_marker_witness :
  ∃ p k,
    find (_strip_think_tags (txt "hello" ++ [newline; newline] ++ block_a))
      tool_call_start_token = Some p
    ∧ take p (_strip_think_tags (txt "hello" ++ [newline; newline] ++ block_a))
      = default []
          (content (ref_extract_tool_calls (txt "hello" ++ [newline; newline] ++ block_a)))
        ++ replicate k newline
    ∧ last (default []
              (content
                 (ref_extract_tool_calls (txt "hello" ++ [newline; newline] ++ block_a))))
      ≠ Some newline
    ∧ find (default []
              (content
                 (ref_extract_tool_calls (txt "hello" ++ [newline; newline] ++ block_a))))
        tool_call_start_token = None.
Proof.
  apply (extract_tool_calls_content_before_marker ref_json_loads ref_FunctionCall_name).
  vm_compute. reflexivity.
Defined.

(** A block inside a narration section. *)
Lemma think_section_transparent_witness :
  _strip_think_tags (txt "I call. " ++ think_open ++ block_a ++ think_close ++ txt " done")
  = txt "I call. " ++ block_a ++ txt " done"
  ∧ ref_extract_tool_calls
      (txt "I call. " ++ think_open ++ block_a ++ think_close ++ txt " done")
    = ref_extract_tool_calls (txt "I call. " ++ block_a ++ txt " done").
Proof.
  apply (think_section_transparent ref_json_loads ref_FunctionCall_name).
  split; vm_compute; reflexivity.
Defined.

(** Four fragments of narration; the start marker that the last two
    spell together is passed on as content. *)
Lemma streaming_narration_passthrough_witness :
  ref_session init narration_deltas
  = ((λ d, Some {| delta_content := nonempty (_strip_think_tags d);
                   delta_tool_calls := [] |}) <$> narration_deltas,
     init, false).
Proof.
  apply (streaming_narration_passthrough ref_json_loads ref_FunctionCall_name).
  repeat constructor; vm_compute; reflexivity.
Defined.

(** The beginning of a block in the buffer, and two fragments that do
    not bring its end. *)
Lemma streaming_waits_for_end_witness :
  ref_session holding_open_block [txt "'argum"; txt "ents': "]
  = (replicate 2 (Some {| delta_content := None; delta_tool_calls := [] |}),
     set_buffer holding_open_block
       (_buffer holding_open_block
        ++ concat (_strip_think_tags <$> [txt "'argum"; txt "ents': "])),
     false).
Proof.
  apply (streaming_waits_for_end ref_json_loads ref_FunctionCall_name
           [txt "'argum"; txt "ents': "] holding_open_block).
  - apply startswith_prefix. vm_compute. reflexivity.
  - vm_compute. reflexivity.
Defined.

(** Narration and a block in one fragment: the message carries the
    narration as content and the call. *)
Lemma streaming_message_witness :
  ∃ self' m,
    extract_tool_calls_streaming ref_json_loads ref_FunctionCall_name init
      (txt "hello" ++ [newline] ++ block_a) = Returned self' (Some m)
    ∧ length (delta_tool_calls m) ≤ 1
    ∧ delta_content m ≠ Some []
    ∧ ∀ c, delta_content m = Some c → find c tool_call_start_token = None.
Proof.
  eexists _, _. split; [vm_compute; reflexivity|].
  eapply (streaming_message ref_json_loads ref_FunctionCall_name init _
            (txt "hello" ++ [newline] ++ block_a)).
  vm_compute. reflexivity.
Defined.

(** A new parser and a whole block. *)
Lemma streaming_returns_or_loads_fails_witness :
  (∃ self' r,
     extract_tool_calls_streaming ref_json_loads ref_FunctionCall_name init block_a
     = Returned self' r)
  ∨ (∃ s e tc rest,
       find (_buffer init ++ _strip_think_tags block_a) tool_call_start_token = Some s
       ∧ find_from (_buffer init ++ _strip_think_tags block_a) tool_call_end_token s
         = Some e
       ∧ tool_calls
           (ref_extract_tool_calls
              (take (e + length tool_call_end_token)
                 (_buffer init ++ _strip_think_tags block_a)))
         = tc :: rest
       ∧ ref_json_loads (arguments (function tc)) = None
       ∧ extract_tool_calls_streaming ref_json_loads ref_FunctionCall_name init block_a
         = Raised (prepare (set_buffer init (_buffer init ++ _strip_think_tags block_a)))).
Proof.
  apply (streaming_returns_or_loads_fails ref_json_loads ref_FunctionCall_name init block_a).
  simpl. lia.
Defined.

(** Two blocks in the buffer and three empty fragments. *)
Lemma streaming_flush_witness :
  (ref_session holding_two_blocks (replicate 3 [])).2 = false
  ∧ delta_function <$> emitted (ref_session holding_two_blocks (replicate 3 [])).1.1
    = function
        <$> take 3 [ {| type := txt "function"; function := function_a |};
                     {| type := txt "function"; function := function_b |} ]
  ∧ mapM ref_tool_call_of_json
      (findall (_buffer (ref_session holding_two_blocks (replicate 3 [])).1.2))
    = Some (drop 3 [ {| type := txt "function"; function := function_a |};
                     {| type := txt "function"; function := function_b |} ]).
Proof.
  apply (streaming_flush ref_json_loads ref_FunctionCall_name holding_two_blocks).
  - simpl. lia.
  - split; vm_compute; reflexivity.
  - vm_compute. reflexivity.
  - repeat constructor.
    + exists (JDict [(txt "x", JInt 1)]). vm_compute. reflexivity.
    + exists (JDict []). vm_compute. reflexivity.
Defined.

(** The narration of four fragments, as the loop of the test
    accumulates it. *)
Lemma test_loop_narration_witness :
  test_loop (ref_session init narration_deltas).1.1
  = (concat (_strip_think_tags <$> narration_deltas), ∅).
Proof.
  apply (test_loop_narration ref_json_loads ref_FunctionCall_name).
  repeat constructor; vm_compute; reflexivity.
Defined.

(** Two blocks in two fragments, then two empty fragments. *)
Lemma streaming_then_flush_witness :
  (ref_session init (two_block_deltas ++ replicate 2 [])).2 = false
  ∧ delta_function <$> emitted (ref_session init (two_block_deltas ++ replicate 2 [])).1.1
    = function <$> tool_calls (ref_extract_tool_calls (concat two_block_deltas)).
Proof.
  apply (streaming_then_flush ref_json_loads ref_FunctionCall_name two_block_deltas
           [ {| type := txt "function"; function := function_a |};
             {| type := txt "function"; function := function_b |} ] 2).
  - split; vm_compute; reflexivity.
  - apply boundaries_ok_spec. vm_compute. reflexivity.
  - vm_compute. reflexivity.
  - repeat constructor.
    + exists (JDict [(txt "x", JInt 1)]). vm_compute. reflexivity.
    + exists (JDict []). vm_compute. reflexivity.
  - simpl. lia.
Defined.
